(** * Pascal's-triangle visualiser (src/app.js): the computation core

    A shallow embedding of the numeric part of [app.js]: [isPrime],
    [combination], [generatePascalTriangle], the loop of
    [showBinomialExpansion], the cells that [render] attaches to the page,
    and the functions that read those cells back ([drawRowSums],
    [getFibonacciCells], [getNaturalNumberCells], [getTriangularNumberCells],
    [getTetrahedralNumberCells]).

    Numbers.  A JavaScript number is modelled in exact arithmetic: loop
    counters and arguments, which are integers at every call site, are [Z];
    the value computed by [combination], which multiplies and divides, is a
    canonical rational [Qc], so that [/] is exact division and equality of
    values is Leibniz equality.  Rounding and overflow of IEEE doubles are
    outside this model; module [Double] embeds [combination] a second time,
    on binary64 floats, to show where the exact model speaks for the code
    (every row the page can show) and where it stops doing so (overflow).

    The page and the application.  Besides the numeric part, the file
    embeds what the page does with the table: the lines of
    [drawConnections], the cells of [drawVerticalSymmetryLine] (with the
    browser's layout as a parameter), the classes [render] gives a cell,
    the global [state] with the handlers of [bindEvents] as a transition
    function on it (module [App]), and [debounce] with the timers it sets
    and clears (module [Debounce]).  Pixel coordinates, colours, texts and
    animation are left out. *)

From Stdlib Require Import ZArith QArith Qcanon Lia List Uint63 Floats.
From Stdlib Require Qcabs.
From stdpp Require Import base numbers list list_numbers option strings pretty.

Local Open Scope Z_scope.

(** ** Numbers *)

(** An integer seen as a number. *)
Definition num (z : Z) : Qc := Qc_of_Z z.

(** ** [combination(n, k)]

<<
  if (k === 0 || k === n) return 1;
  let result = 1;
  for (let i = 1; i <= k; i++) { result = result * (n - i + 1) / i; }
  return result;
>>
    The loop body, and the loop as a left fold over [i = 1, ..., k]
    ([seqZ 1 k] is empty when [k <= 0]). *)

Definition combination_step (n : Z) (result : Qc) (i : Z) : Qc :=
  (result * num (n - i + 1) / num i)%Qc.

Definition combination (n k : Z) : Qc :=
  if bool_decide (k = 0) || bool_decide (k = n) then 1%Qc
  else foldl (combination_step n) 1%Qc (seqZ 1 k).

(** ** Reference notions used by the specification *)

(** The binomial coefficient, by Pascal's rule. *)
Fixpoint binomial (n k : nat) : nat :=
  match n, k with
  | _, O => 1
  | O, S _ => 0
  | S n', S k' => binomial n' k' + binomial n' k
  end.

(** [n!] for an integer [n >= 0]. *)
Definition factorial (n : Z) : Z := Z.of_nat (fact (Z.to_nat n)).

(** The [m]-th Fibonacci number, [0, 1, 1, 2, 3, 5, 8, ...]. *)
Fixpoint fib (m : nat) : Z :=
  match m with
  | O => 0
  | S m' => match m' with
            | O => 1
            | S m'' => fib m' + fib m''
            end
  end.

(** ** Arrays

    A JavaScript array is a list of slots, [None] standing for a hole.
    [arr[i] = v] overwrites slot [i] when it exists and otherwise extends the
    array up to index [i], leaving holes in between. *)

Definition array_set {A} (arr : list (option A)) (i : nat) (v : A)
  : list (option A) :=
  if decide (i < length arr)%nat then <[i := Some v]> arr
  else arr ++ replicate (i - length arr) None ++ [Some v].

(** ** [generatePascalTriangle(rows)]

<<
  const triangle = [];
  for (let n = 0; n < rows; n++) {
    triangle[n] = [];
    for (let k = 0; k <= n; k++) { triangle[n][k] = combination(n, k); }
  }
  return triangle;
>>
    Results are in [option]: [None] is the [TypeError] that
    [triangle[n][k] = v] throws when [triangle[n]] is not there. *)

Abbreviation Row := (list (option Qc)).
Abbreviation Table := (list (option Row)).

(** [triangle[n][k] = v]: the row object stored in slot [n] is updated in
    place. *)
Definition set_cell (triangle : Table) (n k : Z) (v : Qc) : option Table :=
  match triangle !! Z.to_nat n with
  | Some (Some row) =>
      Some (<[Z.to_nat n := Some (array_set row (Z.to_nat k) v)]> triangle)
  | _ => None
  end.

Definition fill_row (n : Z) (triangle : Table) : option Table :=
  foldl (fun acc k => triangle ← acc; set_cell triangle n k (combination n k))
        (Some triangle) (seqZ 0 (n + 1)).

Definition generatePascalTriangle (rows : Z) : option Table :=
  foldl (fun acc n => triangle ← acc;
                      fill_row n (array_set triangle (Z.to_nat n) []))
        (Some []) (seqZ 0 rows).

(** The sum of the entries of a row (holes contribute nothing). *)
Definition row_sum (row : Row) : Qc :=
  foldr (fun slot acc => (default 0 slot + acc)%Qc) 0%Qc row.

(** ** The cells [render] attaches to the page

    [render] walks the table with [forEach] (which skips holes and passes the
    real index) and creates one [.pascal-number] element per entry, with
    [dataset.n], [dataset.k] and [dataset.value] set; the cells of a row go
    into one [.pascal-line] element, and the lines into the container in row
    order.  The page is modelled by the list of its lines, each the list of
    its cells.  The dataset holds strings; the decimal numeral of an integer
    determines it, so [data_n] and [data_k] are kept as integers and
    [data_value] as the number itself. *)

Record Cell := mkCell { data_n : Z; data_k : Z; data_value : Qc }.

Abbreviation Page := (list (list Cell)).

Definition render_row (n : nat) (row : Row) : list Cell :=
  omap id (imap (fun k slot => mkCell (Z.of_nat n) (Z.of_nat k) <$> slot) row).

Definition render_lines (triangle : Table) : Page :=
  omap id (imap (fun n slot => render_row n <$> slot) triangle).

Definition render (rows : Z) : option Page :=
  render_lines <$> generatePascalTriangle rows.

(** [el.triangleContainer.querySelector(".pascal-number[data-n='n'][data-k='k']")]:
    the first matching cell in document order, if any. *)
Definition querySelector (dom : Page) (n k : Z) : option Cell :=
  find (fun c => bool_decide (data_n c = n) && bool_decide (data_k c = k))
       (concat dom).

(** [parseInt(cell.dataset.value)].  The number was turned into a string when
    it was stored.  Below [10^21] that string is the plain decimal numeral
    and [parseInt] reads its integer part; from [10^21] on it is in exponent
    notation ([d.ddde+N]) and [parseInt] stops after the leading digit.  (A
    non-zero magnitude below [10^-6] is also written in exponent notation;
    that case is not modelled: every value of the table is an integer, see
    [combination_binomial].) *)
Fixpoint leading_digit (fuel : nat) (t : Z) : Z :=
  match fuel with
  | O => t
  | S fuel => if decide (t < 10) then t else leading_digit fuel (t / 10)
  end.

Definition parseInt_value (v : Qc) : Z :=
  let t := Z.quot (Qnum v) (Z.pos (Qden v)) in
  if decide (Z.abs t < 10 ^ 21) then t
  else Z.sgn t * leading_digit (Z.to_nat (Z.log2 (Z.abs t))) (Z.abs t).

(** ** [drawRowSums()]

<<
  const lines = Array.from(el.triangleContainer.querySelectorAll('.pascal-line'));
  lines.forEach((line, n) => {
    const cells = Array.from(line.querySelectorAll('.pascal-number'));
    if (cells.length > 0) {
      const rowSum = cells.reduce((sum, cell) => sum + parseInt(cell.dataset.value), 0);
      ...
      const sumLabel = `2^${n} = ${rowSum}`;
      ...
    }
  });
>>
    What is kept of each label is the pair of the exponent [n] and the
    [rowSum] it shows. *)

Definition rowSum (cells : list Cell) : Z :=
  foldl (fun sum cell => sum + parseInt_value (data_value cell)) 0 cells.

Definition drawRowSums (dom : Page) : list (Z * Z) :=
  omap id (imap (fun n cells =>
                   if decide (0 < length cells)%nat
                   then Some (Z.of_nat n, rowSum cells) else None) dom).

(** ** [getFibonacciCells()]

<<
  let countNum = 1;
  for (let m = 0; m < state.rows; m++) {
    const diagonalCells = []; let sum = 0;
    for (let i = 0; i <= m; i++) {
      const n = m - i; const k = i;
      const cell = querySelector(n, k);
      if (cell) { diagonalCells.push(cell); sum += parseInt(cell.dataset.value); }
    }
    if (diagonalCells.length > 0) {
      diagonalCells.forEach(cell => { ...; cells.push(cell); });
      if (svg && diagonalCells.length > 0) {
        ...; displaySumLabel(svg, xEnd + 10, yEnd, sum, fibColor); countNum++;
      }
    }
  }
  return cells;
>>
    The drawing is left out; what is kept is the returned cells and, for each
    label drawn, the pair of [countNum] ("which Fibonacci number this is", as
    the source comments it) and the sum shown.  The [svg] element is taken to
    be present. *)

Definition scan_diagonal (dom : Page) (m : Z) : list Cell * Z :=
  foldl (fun '(diagonalCells, sum) i =>
           match querySelector dom (m - i) i with
           | Some cell => (diagonalCells ++ [cell],
                           sum + parseInt_value (data_value cell))
           | None => (diagonalCells, sum)
           end)
        ([], 0) (seqZ 0 (m + 1)).

Record FibState := mkFibState
  { fib_cells : list Cell; fib_labels : list (Z * Z); countNum : Z }.

Definition fibonacci_step (dom : Page) (st : FibState) (m : Z) : FibState :=
  let '(diagonalCells, sum) := scan_diagonal dom m in
  if decide (0 < length diagonalCells)%nat
  then mkFibState (fib_cells st ++ diagonalCells)
                  (fib_labels st ++ [(countNum st, sum)])
                  (countNum st + 1)
  else st.

Definition getFibonacciCells (rows : Z) (dom : Page) : FibState :=
  foldl (fibonacci_step dom) (mkFibState [] [] 1) (seqZ 0 rows).

(** ** The fixed-column extractors

<<
  for (let n = 0; n < state.rows; n++) {          // getNaturalNumberCells
    if (n >= 1) { const cell = querySelector(n, 1); if (cell) cells.push(cell); }
  }
  for (let n = 2; n < state.rows; n++) {          // getTriangularNumberCells
    const cell = querySelector(n, 2); if (cell) cells.push(cell);
  }
  for (let n = 3; n < state.rows; n++) {          // getTetrahedralNumberCells
    const cell = querySelector(n, 3); if (cell) cells.push(cell);
  }
>> *)

Definition push_cell (dom : Page) (k : Z) (cells : list Cell) (n : Z)
  : list Cell :=
  match querySelector dom n k with
  | Some cell => cells ++ [cell]
  | None => cells
  end.

Definition getNaturalNumberCells (rows : Z) (dom : Page) : list Cell :=
  foldl (fun cells n => if decide (1 ≤ n) then push_cell dom 1 cells n else cells)
        [] (seqZ 0 rows).

Definition getTriangularNumberCells (rows : Z) (dom : Page) : list Cell :=
  foldl (push_cell dom 2) [] (seqZ 2 (rows - 2)).

Definition getTetrahedralNumberCells (rows : Z) (dom : Page) : list Cell :=
  foldl (push_cell dom 3) [] (seqZ 3 (rows - 3)).

(** [highlightPatternCells(pattern)] picks the extractor by a [switch] on
    [state.currentPattern]; it runs from [render], on the page [render] has
    just built for [state.rows]. *)
Inductive Pattern := fibonacci | natural | triangular | tetrahedral.

Definition patternCells (pattern : Pattern) (rows : Z) (dom : Page)
  : list Cell :=
  match pattern with
  | fibonacci => fib_cells (getFibonacciCells rows dom)
  | natural => getNaturalNumberCells rows dom
  | triangular => getTriangularNumberCells rows dom
  | tetrahedral => getTetrahedralNumberCells rows dom
  end.

Definition extractPattern (pattern : Pattern) (rows : Z) : option (list Cell) :=
  patternCells pattern rows <$> render rows.

(** The labels [getFibonacciCells] draws on that page. *)
Definition fibonacciLabels (rows : Z) : option (list (Z * Z)) :=
  (fun dom => fib_labels (getFibonacciCells rows dom)) <$> render rows.

(** ** [isPrime(num)]

<<
  if (num <= 1) return false;
  if (num <= 3) return true;
  if (num % 2 === 0 || num % 3 === 0) return false;
  const sqrtNum = Math.sqrt(num);
  for (let i = 5; i <= sqrtNum; i += 6) {
    if (num % i === 0 || num % (i + 2) === 0) return false;
  }
  return true;
>>
    [%] is the remainder that takes the sign of the dividend, [Z.rem].  The
    counter [i] is an integer, so in exact arithmetic [i <= Math.sqrt(num)]
    holds exactly when [i] is at most the integer square root [Z.sqrt num];
    that is what [sqrtNum] stands for.  The loop is run on fuel; [None] means
    the fuel ran out before the loop returned. *)

Fixpoint isPrime_loop (fuel : nat) (n sqrtNum i : Z) : option bool :=
  match fuel with
  | O => None
  | S fuel =>
      if decide (i ≤ sqrtNum) then
        if bool_decide (Z.rem n i = 0) || bool_decide (Z.rem n (i + 2) = 0)
        then Some false
        else isPrime_loop fuel n sqrtNum (i + 6)
      else Some true
  end.

Definition isPrime (n : Z) : option bool :=
  if decide (n ≤ 1) then Some false
  else if decide (n ≤ 3) then Some true
  else if bool_decide (Z.rem n 2 = 0) || bool_decide (Z.rem n 3 = 0)
  then Some false
  else isPrime_loop (S (Z.to_nat (Z.sqrt n))) n (Z.sqrt n) 5.

(** The reference of the specification: [v <= 1] is not prime; otherwise [v]
    is prime when no integer from 2 up to the square root of [v] divides it. *)
Definition isPrime_reference (v : Z) : bool :=
  bool_decide (1 < v) &&
  forallb (fun d => negb (bool_decide (v mod d = 0))) (seqZ 2 (Z.sqrt v - 1)).

(** ** [showBinomialExpansion(row)]

<<
  let expansion = `(a+b)^{${row}} = `;
  for (let k = 0; k <= row; k++) {
    if (k > 0) expansion += " + ";
    const coeff = combination(row, k);
    if (state.useNumericCoeff) {
      if (coeff !== 1) expansion += `${coeff}`;
    } else {
      expansion += `C_{${row}}^{${k}}`;
    }
    const aExp = row - k;
    if (aExp > 0) { expansion += `a${aExp > 1 ? `^{${aExp}}` : ''}`; }
    const bExp = k;
    if (bExp > 0) { expansion += `b${bExp > 1 ? `^{${bExp}}` : ''}`; }
  }
  return expansion;
>>
    The numbers each iteration formats are [coeff], [aExp] and [bExp].
    [expansionTerms] collects these triples in loop order; the string is
    built from the same three numbers by [format_term].

    A number interpolated into a template is written as its decimal numeral
    when it is an integer below [10^21]; the numerals of other numbers are
    not modelled ([None]). *)

Definition number_string (v : Qc) : option string :=
  if decide (Qden v = 1%positive ∧ Z.abs (Qnum v) < 10 ^ 21)
  then Some (pretty (Qnum v)) else None.

(** [`x${e > 1 ? `^{${e}}` : ''}`] when [e > 0], for [x] one of [a], [b]. *)
Definition power_string (x : string) (e : Z) : option string :=
  if decide (0 < e) then
    if decide (1 < e) then s ← number_string (num e); Some (x +:+ "^{" +:+ s +:+ "}")
    else Some x
  else Some "".

(** What one iteration appends for the numbers it has computed. *)
Definition format_term (useNumericCoeff : bool) (row : Z)
    (expansion : string) (term : Qc * Z * Z) : option string :=
  let '(coeff, aExp, bExp) := term in
  let expansion := if decide (0 < bExp) then expansion +:+ " + " else expansion in
  c ← (if useNumericCoeff then
         if decide (coeff ≠ 1%Qc) then number_string coeff else Some ""
       else r ← number_string (num row); k ← number_string (num bExp);
            Some ("C_{" +:+ r +:+ "}^{" +:+ k +:+ "}"));
  a ← power_string "a" aExp;
  b ← power_string "b" bExp;
  Some (expansion +:+ c +:+ a +:+ b).



Definition showBinomialExpansion_step (useNumericCoeff : bool) (row : Z)
    (acc : option string) (k : Z) : option string :=
  expansion ← acc;
  let coeff := combination row k in
  let aExp := row - k in
  let bExp := k in
  format_term useNumericCoeff row expansion (coeff, aExp, bExp).

Definition showBinomialExpansion (useNumericCoeff : bool) (row : Z)
  : option string :=
  foldl (showBinomialExpansion_step useNumericCoeff row)
        (r ← number_string (num row); Some ("(a+b)^{" +:+ r +:+ "} = "))
        (seqZ 0 (row + 1)).

(** ** [combination] on doubles

    The same function with numbers as IEEE 754 binary64 values, the
    arithmetic JavaScript runs it in: [*], [/], [-], [+] round to nearest,
    [===] and [<=] are the IEEE comparisons.  The loop runs on fuel; [None]
    means the fuel ran out before the loop returned. *)

Module Double.

(** The double that an integer argument is (exact below [2^53]). *)
Definition of_Z (z : Z) : float :=
  if z <? 0 then (- of_uint63 (Uint63.of_Z (- z)))%float
  else of_uint63 (Uint63.of_Z z).

Fixpoint combination_loop (fuel : nat) (n k i result : float) : option float :=
  match fuel with
  | O => None
  | S fuel =>
      if (i <=? k)%float
      then combination_loop fuel n k (i + 1)%float
                            (result * (n - i + 1) / i)%float
      else Some result
  end.

Definition combination (fuel : nat) (n k : float) : option float :=
  if (k =? 0)%float || (k =? n)%float then Some 1%float
  else combination_loop fuel n k 1%float 1%float.

(** The call [combination(n, k)] returns [r]. *)
Definition returns (n k : Z) (r : float) : Prop :=
  ∃ fuel, combination fuel (of_Z n) (of_Z k) = Some r.


End Double.

(** ** Closed forms and statements used below *)

(** Row [n] and the table of [rows] rows, in closed form. *)
Definition row_of (n : Z) : Row :=
  (fun k => Some (combination n k)) <$> seqZ 0 (n + 1).

Definition table_of (rows : Z) : Table :=
  (fun n => Some (row_of n)) <$> seqZ 0 rows.

(** The cells of row [n] and of a page of [rows] rows, in closed form. *)
Definition row_cells (n : Z) : list Cell :=
  (fun k => mkCell n k (combination n k)) <$> seqZ 0 (n + 1).

Definition dom_of (rows : Z) : Page := row_cells <$> seqZ 0 rows.

(** The labels of a page of [R] rows when the sum numbered [c] is the [c]-th
    Fibonacci number: [(1, 1), (2, 1), (3, 2), (4, 3), (5, 5), ...]. *)
Definition fibonacci_labels (R : Z) : list (Z * Z) :=
  (fun c => (c, fib (Z.to_nat c))) <$> seqZ 1 R.


(** The labels of a page of [R] rows when the sum of row [n] is [2^n]. *)
Definition power_labels (R : Z) : list (Z * Z) :=
  (fun n => (n, 2 ^ n)) <$> seqZ 0 R.


(** The check run on doubles for one pair inside the triangle: the call
    returns within 128 turns, and what it returns is [=== c]. *)
Definition double_value_check (n k c : Z) : bool :=
  match Double.combination 128 (Double.of_Z n) (Double.of_Z k) with
  | Some r => (r =? Double.of_Z c)%float
  | None => false
  end.

(** What it means for the triangular family of a page of [R] rows to hold, as
    the cell of row [n], the cell of column 2 with value [value n]. *)
Definition triangular_family_has (value : Z → Z) (R n : Z) : Prop :=
  ∃ cells, extractPattern triangular R = Some cells ∧
           cells !! Z.to_nat (n - 2) = Some (mkCell n 2 (num (value n))).

(** ** [drawConnections()]

<<
  const lines = Array.from(el.triangleContainer.querySelectorAll('.pascal-line'));
  for (let i = 0; i < lines.length - 1; i++) {
    const curNums = Array.from(lines[i].querySelectorAll('.pascal-number'));
    const nextNums = Array.from(lines[i+1].querySelectorAll('.pascal-number'));
    curNums.forEach((cell, j) => {
      ...
      if (j < nextNums.length) { ...; drawSVGLine(svg, cX, cY, <centre of nextNums[j]>); }
      if (j+1 < nextNums.length) { ...; drawSVGLine(svg, cX, cY, <centre of nextNums[j+1]>); }
    });
  }
>>
    The coordinates are left out: a line is kept as the pair of the cell it
    starts from and the cell it ends at, and the [svg] element as the list of
    its lines in the order they are appended. *)

Definition connect_cell (nextNums : list Cell) (j : nat) (cell : Cell)
  : list (Cell * Cell) :=
  (if decide (j < length nextNums)%nat
   then from_option (fun next => [(cell, next)]) [] (nextNums !! j) else [])
  ++ (if decide (j + 1 < length nextNums)%nat
      then from_option (fun next => [(cell, next)]) [] (nextNums !! (j + 1)%nat)
      else []).

Definition connect_lines (curNums nextNums : list Cell) : list (Cell * Cell) :=
  concat (imap (connect_cell nextNums) curNums).

Definition drawConnections (dom : Page) : list (Cell * Cell) :=
  foldl (fun svg i =>
           svg ++ connect_lines (default [] (dom !! i))
                                (default [] (dom !! (i + 1)%nat)))
        [] (seq 0 (length dom - 1)).

(** ** [drawVerticalSymmetryLine()]

<<
  const firstCell = el.triangleContainer.querySelector(`.pascal-number[data-n='0'][data-k='0']`);
  if (firstCell) {
    const firstRect = firstCell.getBoundingClientRect();
    const verticalLineX = firstRect.left + firstRect.width / 2 - containerRect.left;
    ...
    firstCell.classList.add('rounded-square');
    const verticalLineCells = [firstCell];
    for (let n = 0; n < state.rows; n+=2) {
      const rowCells = el.triangleContainer.querySelectorAll(`.pascal-number[data-n='${n}']`);
      let closestCell = null;
      let minDistance = Infinity;
      rowCells.forEach(cell => {
        const rect = cell.getBoundingClientRect();
        const cellCenterX = rect.left + rect.width / 2 - containerRect.left;
        const distance = Math.abs(cellCenterX - verticalLineX);
        if (distance < minDistance) { minDistance = distance; closestCell = cell; }
      });
      if (closestCell) {
        closestCell.classList.add('rounded-square');
        verticalLineCells.push(closestCell);
        ... <a circle is drawn at the centre of closestCell> ...
      }
    }
    ... <the vertical line is drawn> ...
  }
>>
    The layout is the browser's: it enters as the function [centerX], which
    gives for a cell the abscissa of its centre relative to the container
    ([rect.left + rect.width / 2 - containerRect.left]), in exact
    arithmetic.  What is kept is [verticalLineCells]: the cells that get the
    class [rounded-square], in the order they are pushed; a circle is drawn
    on each but the first.  [minDistance] is [None] while it is
    [Infinity].  The loop variable takes the values [2 i] for
    [i = 0, ..., ceil(rows / 2) - 1]. *)

Definition closest_step (centerX : Cell → Qc) (verticalLineX : Qc)
    (acc : option Cell * option Qc) (cell : Cell) : option Cell * option Qc :=
  let distance := Qcabs.Qcabs (centerX cell - verticalLineX) in
  match acc.2 with
  | Some minDistance =>
      if Qclt_le_dec distance minDistance then (Some cell, Some distance) else acc
  | None => (Some cell, Some distance)
  end.

Definition closestCell (centerX : Cell → Qc) (verticalLineX : Qc)
    (rowCells : list Cell) : option Cell :=
  (foldl (closest_step centerX verticalLineX) (None, None) rowCells).1.

(** [el.triangleContainer.querySelectorAll(".pascal-number[data-n='n']")]. *)
Definition querySelectorAll_row (dom : Page) (n : Z) : list Cell :=
  filter (fun c => data_n c = n) (concat dom).

Definition drawVerticalSymmetryLine (centerX : Cell → Qc) (rows : Z) (dom : Page)
  : list Cell :=
  match querySelector dom 0 0 with
  | Some firstCell =>
      foldl (fun verticalLineCells n =>
               match closestCell centerX (centerX firstCell)
                                 (querySelectorAll_row dom n) with
               | Some cell => verticalLineCells ++ [cell]
               | None => verticalLineCells
               end)
            [firstCell] ((fun i => 2 * i) <$> seqZ 0 ((rows + 1) `div` 2))
  | None => []
  end.

(** The distance of a cell's centre from the vertical line. *)
Definition distance_to (centerX : Cell → Qc) (verticalLineX : Qc) (cell : Cell)
  : Qc :=
  Qcabs.Qcabs (centerX cell - verticalLineX).

(** ** The global [state] and the handlers of [bindEvents()]

    [state] is the object literal at the top of the file; the handlers are
    the [onclick] functions [bindEvents] installs, each one event of the
    application.  The buttons a handler is installed on are taken to be
    present in the page. *)

Module App.

Record State := mkState
  { rows : Z; maxRows : Z; minRows : Z;
    showLines : bool; useCombination : bool; useNumericCoeff : bool;
    showSymmetryLine : bool; currentPattern : option Pattern;
    showSierpinski : bool; showRowSums : bool; showPrimes : bool }.

(** The literal:
<<
  rows: 6, maxRows: 30, minRows: 1, showLines: false, useCombination: false,
  useNumericCoeff: false, showSymmetryLine: false, currentPattern: null,
  showSierpinski: false, showRowSums: false, showPrimes: false
>> *)
Definition state0 : State :=
  {| rows := 6; maxRows := 30; minRows := 1;
     showLines := false; useCombination := false; useNumericCoeff := false;
     showSymmetryLine := false; currentPattern := None;
     showSierpinski := false; showRowSums := false; showPrimes := false |}.

(** Assignments to the fields, by group. *)
Definition set_rows (v : Z) (s : State) : State :=
  {| rows := v; maxRows := maxRows s; minRows := minRows s;
     showLines := showLines s; useCombination := useCombination s;
     useNumericCoeff := useNumericCoeff s;
     showSymmetryLine := showSymmetryLine s; currentPattern := currentPattern s;
     showSierpinski := showSierpinski s; showRowSums := showRowSums s;
     showPrimes := showPrimes s |}.

Definition set_display (lines comb coeff : bool) (s : State) : State :=
  {| rows := rows s; maxRows := maxRows s; minRows := minRows s;
     showLines := lines; useCombination := comb; useNumericCoeff := coeff;
     showSymmetryLine := showSymmetryLine s; currentPattern := currentPattern s;
     showSierpinski := showSierpinski s; showRowSums := showRowSums s;
     showPrimes := showPrimes s |}.

Definition set_features (sym : bool) (pat : option Pattern) (sie sums pri : bool)
    (s : State) : State :=
  {| rows := rows s; maxRows := maxRows s; minRows := minRows s;
     showLines := showLines s; useCombination := useCombination s;
     useNumericCoeff := useNumericCoeff s;
     showSymmetryLine := sym; currentPattern := pat;
     showSierpinski := sie; showRowSums := sums; showPrimes := pri |}.

(** [activateFeature(featureType)]:
<<
  state.currentPattern = null;   state.showSymmetryLine = false;
  state.showSierpinski = false;  state.showRowSums = false;
  state.showPrimes = false;
  if (featureType === 'symmetry') { state.showSymmetryLine = true; }
  else if (featureType === 'sierpinski') { state.showSierpinski = true; }
  else if (featureType === 'rowSums') { state.showRowSums = true; ... }
  else if (featureType === 'primes') { state.showPrimes = true; ... }
  else if (featureType) { state.currentPattern = featureType; }
  else { ... }
  ...; render();
>>
    The argument is one of the strings ['symmetry'], ['sierpinski'],
    ['rowSums'], ['primes'], a pattern name, or [null]. *)
Inductive Feature := symmetry | sierpinski | rowSums | primes | pattern (p : Pattern).

Definition activateFeature (featureType : option Feature) (s : State) : State :=
  match featureType with
  | Some symmetry => set_features true None false false false s
  | Some sierpinski => set_features false None true false false s
  | Some rowSums => set_features false None false true false s
  | Some primes => set_features false None false false true s
  | Some (pattern p) => set_features false (Some p) false false false s
  | None => set_features false None false false false s
  end.

(** What [el.expansionContent] holds: what the markup put there, the
    placeholder text the reset handler writes, or the formula
    [onCellClick] renders (the string [showBinomialExpansion] returns). *)
Inductive Panel := markup | placeholder | formula (latex : option string).

(** The application: [state], and of the page and [el] what the handlers
    write besides the triangle: [el.lastClicked], [el.expansionContent],
    whether the container carries the class [sierpinski-active], and whether
    the symmetry and Sierpinski buttons read "hide" rather than "show". *)
Record App := mkApp
  { state : State;
    lastClicked : option (Z * Z * Qc);
    expansionContent : Panel;
    sierpinskiActive : bool;
    symmetryBtnHides : bool;
    sierpinskiBtnHides : bool }.

(** [onCellClick(n, k, value)]:
<<
  el.lastClicked = [n, k, value];
  const binomLaTeX = showBinomialExpansion(n);
  el.expansionContent.innerHTML = katex.renderToString(binomLaTeX, ...);
>> *)
Definition onCellClick (n k : Z) (value : Qc) (a : App) : App :=
  {| state := state a;
     lastClicked := Some (n, k, value);
     expansionContent :=
       formula (showBinomialExpansion (useNumericCoeff (state a)) n);
     sierpinskiActive := sierpinskiActive a;
     symmetryBtnHides := symmetryBtnHides a;
     sierpinskiBtnHides := sierpinskiBtnHides a |}.

Definition set_state (s : State) (a : App) : App :=
  {| state := s; lastClicked := lastClicked a;
     expansionContent := expansionContent a;
     sierpinskiActive := sierpinskiActive a;
     symmetryBtnHides := symmetryBtnHides a;
     sierpinskiBtnHides := sierpinskiBtnHides a |}.

(** One event per handler.  [ApplyRows v] carries what
    [parseInt(el.rowsInput.value, 10)] returned ([None] for [NaN]);
    [CellClick] is the [onclick] that [render] puts on a cell. *)
Inductive Event :=
  | ToggleSymmetry | ToggleSierpinski | PatternBtn (p : Pattern) | ClearPattern
  | ApplyRows (v : option Z) | AddRow | RemoveRow | ResetBtn
  | ToggleLines | ToggleNotation | ToggleCoeff | ToggleRowSums | TogglePrimes
  | CellClick (n k : Z) (value : Qc).

#[global] Instance Pattern_eq_dec : EqDecision Pattern.
Proof. solve_decision. Defined.

(** The handlers.
<<
  el.toggleSymmetryBtn.onclick = () => {
    if (state.showSymmetryLine) { activateFeature(null); }
    else { activateFeature('symmetry'); }
    el.toggleSymmetryBtn.innerHTML = state.showSymmetryLine ? '... hide' : '... show';
  };
  el.toggleSierpinskiBtn.onclick = () => {
    if (el.triangleContainer) {
      if (!state.showSierpinski) { el.triangleContainer.classList.add('sierpinski-active'); }
      else { el.triangleContainer.classList.remove('sierpinski-active'); }
    }
    if (state.showSierpinski) { activateFeature(null); }
    else { activateFeature('sierpinski'); }
    el.toggleSierpinskiBtn.innerHTML = state.showSierpinski ? '... hide' : '... show';
  };
  el.fibonacciBtn.onclick = () => {            // and the three other patterns
    if (state.currentPattern === 'fibonacci') { activateFeature(null); }
    else { activateFeature('fibonacci'); }
  };
  el.clearPatternBtn.onclick = () => { activateFeature(null); };
  apply-rows:  const v = parseInt(el.rowsInput.value, 10);
               if (!isNaN(v) && v >= state.minRows && v <= state.maxRows) {
                 state.rows = v; render(); }
  add-row:     if (state.rows < state.maxRows) { state.rows++; ...; render(); }
  remove-row:  if (state.rows > state.minRows) { state.rows--; ...; render(); }
  reset-btn:   state.rows = 6; state.showLines = false;
               state.useCombination = false; state.useNumericCoeff = false;
               state.currentPattern = null; state.showSierpinski = false;
               state.showRowSums = false; state.showPrimes = false;
               ...; el.expansionContent.innerHTML = <placeholder>; ...; render();
  el.toggleLinesBtn.onclick    = () => { state.showLines = !state.showLines; ... };
  el.toggleNotationBtn.onclick = () => { state.useCombination = !state.useCombination; ... };
  el.toggleCoeffBtn.onclick    = () => {
    state.useNumericCoeff = !state.useNumericCoeff; updateToggleButtons();
    if(el.lastClicked) onCellClick(...el.lastClicked);
  };
  el.toggleRowSumsBtn.onclick  = () => {
    if (state.showRowSums) { activateFeature(null); } else { activateFeature('rowSums'); } ... };
  el.togglePrimesBtn.onclick   = () => {
    if (state.showPrimes) { activateFeature(null); } else { activateFeature('primes'); } ... };
>> *)
Definition handle (e : Event) (a : App) : App :=
  let s := state a in
  match e with
  | ToggleSymmetry =>
      let s' := if showSymmetryLine s then activateFeature None s
                else activateFeature (Some symmetry) s in
      {| state := s'; lastClicked := lastClicked a;
         expansionContent := expansionContent a;
         sierpinskiActive := sierpinskiActive a;
         symmetryBtnHides := showSymmetryLine s';
         sierpinskiBtnHides := sierpinskiBtnHides a |}
  | ToggleSierpinski =>
      let s' := if showSierpinski s then activateFeature None s
                else activateFeature (Some sierpinski) s in
      {| state := s'; lastClicked := lastClicked a;
         expansionContent := expansionContent a;
         sierpinskiActive := negb (showSierpinski s);
         symmetryBtnHides := symmetryBtnHides a;
         sierpinskiBtnHides := showSierpinski s' |}
  | PatternBtn p =>
      set_state (if decide (currentPattern s = Some p) then activateFeature None s
                 else activateFeature (Some (pattern p)) s) a
  | ClearPattern => set_state (activateFeature None s) a
  | ApplyRows v =>
      match v with
      | Some v => if decide (minRows s ≤ v ∧ v ≤ maxRows s)
                  then set_state (set_rows v s) a else a
      | None => a
      end
  | AddRow =>
      if decide (rows s < maxRows s) then set_state (set_rows (rows s + 1) s) a
      else a
  | RemoveRow =>
      if decide (minRows s < rows s) then set_state (set_rows (rows s - 1) s) a
      else a
  | ResetBtn =>
      {| state := {| rows := 6; maxRows := maxRows s; minRows := minRows s;
                     showLines := false; useCombination := false;
                     useNumericCoeff := false;
                     showSymmetryLine := showSymmetryLine s;
                     currentPattern := None; showSierpinski := false;
                     showRowSums := false; showPrimes := false |};
         lastClicked := lastClicked a;
         expansionContent := placeholder;
         sierpinskiActive := sierpinskiActive a;
         symmetryBtnHides := symmetryBtnHides a;
         sierpinskiBtnHides := sierpinskiBtnHides a |}
  | ToggleLines =>
      set_state (set_display (negb (showLines s)) (useCombination s)
                             (useNumericCoeff s) s) a
  | ToggleNotation =>
      set_state (set_display (showLines s) (negb (useCombination s))
                             (useNumericCoeff s) s) a
  | ToggleCoeff =>
      let a' := set_state (set_display (showLines s) (useCombination s)
                                       (negb (useNumericCoeff s)) s) a in
      match lastClicked a' with
      | Some (n, k, value) => onCellClick n k value a'
      | None => a'
      end
  | ToggleRowSums =>
      set_state (if showRowSums s then activateFeature None s
                 else activateFeature (Some rowSums) s) a
  | TogglePrimes =>
      set_state (if showPrimes s then activateFeature None s
                 else activateFeature (Some primes) s) a
  | CellClick n k value => onCellClick n k value a
  end.

(** The page as [init()] finds it: [state] is the literal, [el.lastClicked]
    is not set, and the panel, the container's classes and the button texts
    are whatever the markup says. *)
Definition initial (a : App) : Prop :=
  state a = state0 ∧ lastClicked a = None ∧ expansionContent a = markup.

(** One such page: no class on the container, both buttons reading "show". *)
Definition app0 : App := mkApp state0 None markup false false false.

(** The application after the events [es], oldest first. *)
Definition run (es : list Event) (a : App) : App :=
  foldl (fun a e => handle e a) a es.

(** How many of the five special displays are on. *)
Definition features_on (s : State) : nat :=
  (if showSymmetryLine s then 1 else 0)
  + (if currentPattern s is Some _ then 1 else 0)
  + (if showSierpinski s then 1 else 0) + (if showRowSums s then 1 else 0)
  + (if showPrimes s then 1 else 0).

(** The formula panel shows a formula only for the cell clicked last, in the
    coefficient style now selected. *)
Definition panel_in_sync (a : App) : Prop :=
  ∀ latex, expansionContent a = formula latex →
    ∃ n k value, lastClicked a = Some (n, k, value)
                 ∧ latex = showBinomialExpansion (useNumericCoeff (state a)) n.

(** A display that is on has its decoration: the container's class for the
    Sierpinski display, the "hide" text on the button of either display. *)
Definition decorations_follow (a : App) : Prop :=
  (showSierpinski (state a) = true → sierpinskiActive a = true)
  ∧ (showSierpinski (state a) = true → sierpinskiBtnHides a = true)
  ∧ (showSymmetryLine (state a) = true → symmetryBtnHides a = true).

End App.

(** ** The classes [render()] gives a cell

<<
  if (state.showSierpinski && value % 2 === 1) { cell.classList.add('triangle'); }
  if (state.showPrimes && isPrime(value)) { cell.classList.add('rounded-square'); }
>>
    [value] is the entry of the table, an integer (see
    [combination_binomial]); [%] and [isPrime] are modelled on integers, and
    a value that is not one is outside this model ([None]).  [&&] does not
    evaluate its right operand when the flag is off. *)

Definition integer_value (v : Qc) : option Z :=
  if decide (Qden v = 1%positive) then Some (Qnum v) else None.

Definition cellClasses (s : App.State) (value : Qc) : option (list string) :=
  triangle ← (if App.showSierpinski s
              then z ← integer_value value; Some (bool_decide (Z.rem z 2 = 1))
              else Some false);
  rounded ← (if App.showPrimes s
             then z ← integer_value value; isPrime z
             else Some false);
  Some ((if triangle : bool then ["triangle"] else [])
        ++ (if rounded : bool then ["rounded-square"] else [])).

(** ** [debounce(fn, wait)]

<<
  let timeout = null;
  return function(...args) {
    if (timeout) clearTimeout(timeout);
    timeout = setTimeout(() => fn.apply(this, args), wait);
  };
>>
    The timers of the page are modelled as far as this closure uses them:
    the clock [now], the timers set and not yet run or cleared, each with its
    handle, the time it is due and the arguments its callback holds, and the
    handle the next [setTimeout] returns.  Handles are positive, hence
    truthy.  [executed] records the calls of [fn], by their arguments, in
    the order they happen. *)

Module Debounce.

Record Timer (A : Type) := mkTimer { timer_id : positive; due : Z; timer_args : A }.
Arguments mkTimer {A}.
Arguments timer_id {A}.
Arguments due {A}.
Arguments timer_args {A}.

Record Env (A : Type) := mkEnv
  { now : Z;
    next_id : positive;
    pending : list (Timer A);
    timeout : option positive;
    executed : list A }.
Arguments mkEnv {A}.
Arguments now {A}.
Arguments next_id {A}.
Arguments pending {A}.
Arguments timeout {A}.
Arguments executed {A}.

(** Right after [debounce(fn, wait)] has returned: [timeout] is [null]. *)
Definition start {A} : Env A := mkEnv 0 1%positive [] None [].

(** [clearTimeout(id)]: the timer of that handle, if still set, is dropped. *)
Definition clearTimeout {A} (id : positive) (e : Env A) : Env A :=
  mkEnv (now e) (next_id e)
        (filter (fun t => timer_id t ≠ id) (pending e))
        (timeout e) (executed e).

(** [timeout = setTimeout(() => fn.apply(this, args), wait)]. *)
Definition setTimeout {A} (wait : Z) (args : A) (e : Env A) : Env A :=
  mkEnv (now e) (Pos.succ (next_id e))
        (pending e ++ [mkTimer (next_id e) (now e + wait) args])
        (Some (next_id e)) (executed e).

(** The function [debounce] returns, called with [args]. *)
Definition debounced {A} (wait : Z) (args : A) (e : Env A) : Env A :=
  setTimeout wait args
    (match timeout e with Some id => clearTimeout id e | None => e end).

(** [dt] milliseconds pass with no call: the timers that fall due run, in
    the order they were set (which, the delay being the same for all, is the
    order they are due in). *)
Definition elapse {A} (dt : Z) (e : Env A) : Env A :=
  let now' := now e + Z.max 0 dt in
  mkEnv now' (next_id e)
        (filter (fun t => now' < due t) (pending e))
        (timeout e)
        (executed e
         ++ (timer_args <$> filter (fun t => due t ≤ now') (pending e))).

Inductive Event (A : Type) := Call (args : A) | Elapse (dt : Z).
Arguments Call {A}.
Arguments Elapse {A}.

Definition handle {A} (wait : Z) (ev : Event A) (e : Env A) : Env A :=
  match ev with
  | Call args => debounced wait args e
  | Elapse dt => elapse dt e
  end.

Definition run {A} (wait : Z) (evs : list (Event A)) (e : Env A) : Env A :=
  foldl (fun e ev => handle wait ev e) e evs.

(** A burst: calls, each followed by a pause. *)
Definition burst {A} (calls : list (A * Z)) : list (Event A) :=
  concat ((fun c => [Call c.1; Elapse c.2]) <$> calls).

(** The arguments of the calls among [evs]. *)
Definition called {A} (evs : list (Event A)) : list A :=
  omap (fun ev => match ev with Call args => Some args | Elapse _ => None end) evs.

(** At most one timer is set, and it is the one [timeout] names. *)
Definition one_timer {A} (e : Env A) : Prop :=
  pending e = [] ∨ ∃ t, pending e = [t] ∧ timeout e = Some (timer_id t).

(** What has run is among what was called, in order, and the timer that is
    set holds the arguments of the call made last. *)
Definition runs_called {A} (e : Env A) (cs : list A) : Prop :=
  (pending e = [] ∧ sublist (executed e) cs)
  ∨ ∃ t cs', pending e = [t] ∧ timeout e = Some (timer_id t)
             ∧ cs = cs' ++ [timer_args t] ∧ sublist (executed e) cs'.

End Debounce.

(** ** Closed forms of the lines and of the Fibonacci cells *)

(** The cell of [(n, k)] as [render] makes it. *)
Definition cell_of (n k : Z) : Cell := mkCell n k (combination n k).

(** From every cell of the rows [0, ..., R - 2], a line to the cell below
    on the left and a line to the cell below on the right. *)
Definition connections_of (R : Z) : list (Cell * Cell) :=
  concat ((fun n => concat ((fun k => [(cell_of n k, cell_of (n + 1) k);
                                       (cell_of n k, cell_of (n + 1) (k + 1))])
                            <$> seqZ 0 (n + 1)))
          <$> seqZ 0 (R - 1)).

(** The cells [(m, 0), (m - 1, 1), ...] of the diagonal [n + k = m], as far
    as they lie in the triangle. *)
Definition diagonal_cells (m : Z) : list Cell :=
  (fun i => cell_of (m - i) i) <$> seqZ 0 (m `div` 2 + 1).

(** The middle cells of the even rows [0, 2, ...] of a page of [R] rows:
    the central coefficients [C(2 m, m)]. *)
Definition central_cells (R : Z) : list Cell :=
  (fun m => cell_of (2 * m) m) <$> seqZ 0 ((R + 1) `div` 2).

(** * Properties *)

(** ** Evaluation on small inputs *)

Section Evaluation.

Example combination_4_2 : combination 4 2 = num 6.
Proof. by apply Qc_is_canon. Qed.

Example combination_6_0 : combination 6 0 = num 1.
Proof. by apply Qc_is_canon. Qed.

Example combination_2_5 : combination 2 5 = num 0.
Proof. by apply Qc_is_canon. Qed.

Example double_combination_4_2 :
  Double.combination 8 (Double.of_Z 4) (Double.of_Z 2) = Some 6%float.
Proof. reflexivity. Qed.

Example double_combination_2_4 :
  Double.combination 8 (Double.of_Z 2) (Double.of_Z 4) = Some (-0)%float.
Proof. reflexivity. Qed.

Example double_combination_out_of_fuel :
  Double.combination 3 (Double.of_Z 9) (Double.of_Z 4) = None.
Proof. reflexivity. Qed.

Example array_set_extends :
  array_set [Some 1; Some 2] 4 9 = [Some 1; Some 2; None; None; Some 9].
Proof. reflexivity. Qed.

Example array_set_overwrites :
  array_set [Some 1; Some 2] 0 9 = [Some 9; Some 2].
Proof. reflexivity. Qed.

Example generatePascalTriangle_3 :
  generatePascalTriangle 3
  = Some [Some [Some (num 1)];
          Some [Some (num 1); Some (num 1)];
          Some [Some (num 1); Some (num 2); Some (num 1)]].
Proof.
  vm_compute. do 2 f_equal; repeat (f_equal; try by apply Qc_is_canon).
Qed.

Example generatePascalTriangle_negative : generatePascalTriangle (-2) = Some [].
Proof. reflexivity. Qed.

Example parseInt_value_integer : parseInt_value (num 252) = 252.
Proof. reflexivity. Qed.

Example parseInt_value_fraction : parseInt_value (Q2Qc (7 # 2)) = 3.
Proof. reflexivity. Qed.

Example parseInt_value_exponent : parseInt_value (num (3 * 10 ^ 21)) = 3.
Proof. reflexivity. Qed.

Example showBinomialExpansion_numeric_3 :
  showBinomialExpansion true 3
  = Some "(a+b)^{3} = a^{3} + 3a^{2}b + 3ab^{2} + b^{3}".
Proof. vm_compute. reflexivity. Qed.

Example showBinomialExpansion_symbolic_2 :
  showBinomialExpansion false 2
  = Some "(a+b)^{2} = C_{2}^{0}a^{2} + C_{2}^{1}ab + C_{2}^{2}b^{2}".
Proof. vm_compute. reflexivity. Qed.

Example showBinomialExpansion_0 :
  showBinomialExpansion true 0 = Some "(a+b)^{0} = ".
Proof. vm_compute. reflexivity. Qed.

Example isPrime_25 : isPrime 25 = Some false.
Proof. reflexivity. Qed.

Example isPrime_49 : isPrime 49 = Some false.
Proof. reflexivity. Qed.

Example isPrime_97 : isPrime 97 = Some true.
Proof. reflexivity. Qed.

Example isPrime_1 : isPrime 1 = Some false.
Proof. reflexivity. Qed.

Example isPrime_negative : isPrime (-7) = Some false.
Proof. reflexivity. Qed.

Example fibonacciLabels_6 :
  fibonacciLabels 6 = Some [(1, 1); (2, 1); (3, 2); (4, 3); (5, 5); (6, 8)].
Proof. vm_compute. reflexivity. Qed.

Example scan_diagonal_4 :
  (fun dom => snd (scan_diagonal dom 4)) <$> render 6 = Some 5.
Proof. vm_compute. reflexivity. Qed.

End Evaluation.

(** ** Binomial coefficients *)

Section Binomial.

Lemma binomial_0_r n : binomial n 0 = 1%nat.
Proof. by destruct n. Qed.

Lemma binomial_succ n k :
  binomial (S n) (S k) = (binomial n k + binomial n (S k))%nat.
Proof. done. Qed.

Lemma binomial_gt n k : (n < k)%nat → binomial n k = 0%nat.
Proof.
  revert k. induction n as [|n IH]; intros [|k] Hk; try done; try lia.
  rewrite binomial_succ, !IH by lia. done.
Qed.

Lemma binomial_diag n : binomial n n = 1%nat.
Proof.
  induction n as [|n IH]; [done|].
  rewrite binomial_succ, IH, binomial_gt by lia. done.
Qed.

(** [(k + 1) * C(n, k + 1) = (n - k) * C(n, k)], also when [k >= n]. *)
Lemma binomial_absorb n k :
  Z.of_nat (S k) * Z.of_nat (binomial n (S k))
  = (Z.of_nat n - Z.of_nat k) * Z.of_nat (binomial n k).
Proof.
  revert k. induction n as [|n IH]; intros k.
  - destruct k; simpl; lia.
  - rewrite binomial_succ. destruct k as [|k].
    + rewrite !binomial_0_r. specialize (IH 0%nat).
      rewrite binomial_0_r in IH. lia.
    + rewrite (binomial_succ n k).
      pose proof (IH k) as IH1. pose proof (IH (S k)) as IH2. nia.
Qed.

(** [C(n, k) * k! * (n - k)! = n!] for [k <= n]. *)
Lemma binomial_fact n k :
  (k ≤ n)%nat → (binomial n k * fact k * fact (n - k) = fact n)%nat.
Proof.
  revert k. induction n as [|n IH]; intros k Hk.
  - assert (k = 0%nat) as -> by lia. done.
  - destruct k as [|k].
    + rewrite binomial_0_r. simpl. lia.
    + destruct (decide (k = n)) as [->|Hne].
      * rewrite binomial_diag, Nat.sub_diag. simpl. lia.
      * rewrite binomial_succ.
        pose proof (IH k ltac:(lia)) as IH1.
        pose proof (IH (S k) ltac:(lia)) as IH2.
        replace (S n - S k)%nat with (n - k)%nat by lia.
        replace (n - k)%nat with (S (n - S k)) in * by lia.
        change (fact (S n)) with (S n * fact n)%nat.
        change (fact (S k)) with (S k * fact k)%nat in *.
        change (fact (S (n - S k))) with (S (n - S k) * fact (n - S k))%nat in *.
        nia.
Qed.

Lemma binomial_sym n k : (k ≤ n)%nat → binomial n k = binomial n (n - k).
Proof.
  intros Hk. pose proof (binomial_fact n k Hk) as H1.
  pose proof (binomial_fact n (n - k) ltac:(lia)) as H2.
  replace (n - (n - k))%nat with k in H2 by lia.
  pose proof (lt_O_fact k). pose proof (lt_O_fact (n - k)).
  assert (0 < fact k * fact (n - k))%nat as Hpos by nia.
  apply (Nat.mul_cancel_r _ _ (fact k * fact (n - k))); [lia|]. lia.
Qed.

End Binomial.

(** ** [combination] computes the binomial coefficient *)

Section Combination.

Lemma num_add a b : num (a + b) = (num a + num b)%Qc.
Proof. apply Z2Qc_inj_add. Qed.

Lemma num_mul a b : num (a * b) = (num a * num b)%Qc.
Proof. apply Z2Qc_inj_mul. Qed.

Lemma num_inj a b : num a = num b → a = b.
Proof. apply Z2Qc_inj. Qed.

Lemma num_0 : num 0 = 0%Qc.
Proof. apply Z2Qc_inj_0. Qed.

Lemma num_1 : num 1 = 1%Qc.
Proof. apply Z2Qc_inj_1. Qed.

Lemma num_nonzero a : a ≠ 0 → num a ≠ 0%Qc.
Proof. intros Ha H. rewrite <- num_0 in H. by apply num_inj in H. Qed.

(** Exact division undoes an exact product. *)
Lemma num_div_exact a b c : b ≠ 0 → a = c * b → (num a / num b)%Qc = num c.
Proof.
  intros Hb ->. rewrite num_mul. field. by apply num_nonzero.
Qed.

(** One turn of the loop takes [C(n, j)] to [C(n, j + 1)]. *)
Lemma combination_step_binomial (n j : nat) :
  combination_step (Z.of_nat n) (num (Z.of_nat (binomial n j)))
                   (Z.of_nat j + 1)
  = num (Z.of_nat (binomial n (S j))).
Proof.
  unfold combination_step. rewrite <- num_mul.
  apply num_div_exact; [lia|].
  pose proof (binomial_absorb n j) as H.
  rewrite Nat2Z.inj_succ in H. lia.
Qed.

(** The loop invariant: started at [i = j + 1] on [C(n, j)], [len] turns
    leave [C(n, j + len)]. *)
Lemma combination_loop_binomial (n len j : nat) :
  foldl (combination_step (Z.of_nat n)) (num (Z.of_nat (binomial n j)))
        (seqZ (Z.of_nat j + 1) (Z.of_nat len))
  = num (Z.of_nat (binomial n (j + len))).
Proof.
  revert j. induction len as [|len IH]; intros j.
  - rewrite seqZ_nil by lia. simpl. by rewrite Nat.add_0_r.
  - rewrite seqZ_cons by lia. simpl.
    rewrite combination_step_binomial.
    replace (Z.succ (Z.of_nat j + 1)) with (Z.of_nat (S j) + 1) by lia.
    replace (Z.pred (Z.of_nat (S len))) with (Z.of_nat len) by lia.
    rewrite IH. by replace (S j + len)%nat with (j + S len)%nat by lia.
Qed.

(** For all [n, k >= 0], inside the triangle or not, the code returns
    [C(n, k)]. *)
Lemma combination_binomial (n k : nat) :
  combination (Z.of_nat n) (Z.of_nat k) = num (Z.of_nat (binomial n k)).
Proof.
  unfold combination. repeat case_bool_decide; simpl.
  - assert (k = 0%nat) as -> by lia. by rewrite binomial_0_r, <- num_1.
  - assert (k = 0%nat) as -> by lia. by rewrite binomial_0_r, <- num_1.
  - assert (k = n) as -> by lia. by rewrite binomial_diag, <- num_1.
  - pose proof (combination_loop_binomial n k 0) as Hloop.
    rewrite binomial_0_r in Hloop. simpl in Hloop.
    rewrite <- num_1. exact Hloop.
Qed.

Lemma combination_binomial_Z (n k : Z) :
  0 ≤ n → 0 ≤ k →
  combination n k = num (Z.of_nat (binomial (Z.to_nat n) (Z.to_nat k))).
Proof.
  intros Hn Hk. rewrite <- combination_binomial. f_equal; lia.
Qed.

End Combination.

(** ** The generated table *)

Section Table.

Lemma array_set_end {A} (arr : list (option A)) (v : A) :
  array_set arr (length arr) v = arr ++ [Some v].
Proof.
  unfold array_set. case_decide; [lia|].
  by rewrite Nat.sub_diag.
Qed.

(** Writing [triangle[n][k]] when row [n] is the last row and [k] is its
    length pushes the value onto that row. *)
Lemma set_cell_push (t : Table) (r : Row) (n k : Z) (v : Qc) :
  length t = Z.to_nat n → length r = Z.to_nat k →
  set_cell (t ++ [Some r]) n k v = Some (t ++ [Some (r ++ [Some v])]).
Proof.
  intros Ht Hr. unfold set_cell.
  rewrite <- Ht, list_lookup_middle by done.
  rewrite <- Hr, array_set_end.
  replace (length t) with (length t + 0)%nat at 1 by lia.
  by rewrite insert_app_r.
Qed.

(** Invariant of the inner loop. *)
Lemma fill_row_from (t : Table) (n : Z) (len : nat) (j : Z) (r : Row) :
  length t = Z.to_nat n → 0 ≤ j → length r = Z.to_nat j →
  foldl (fun acc k => triangle ← acc; set_cell triangle n k (combination n k))
        (Some (t ++ [Some r])) (seqZ j (Z.of_nat len))
  = Some (t ++ [Some (r ++ ((fun k => Some (combination n k))
                             <$> seqZ j (Z.of_nat len)))]).
Proof.
  intros Ht. revert j r. induction len as [|len IH]; intros j r Hj Hr.
  - rewrite seqZ_nil by lia. simpl. by rewrite app_nil_r.
  - rewrite seqZ_cons by lia. simpl.
    rewrite set_cell_push by done.
    replace (Z.pred (Z.of_nat (S len))) with (Z.of_nat len) by lia.
    rewrite IH; [|lia|rewrite length_app; simpl; lia].
    by rewrite <- app_assoc.
Qed.

Lemma fill_row_spec (t : Table) (n : Z) :
  0 ≤ n → length t = Z.to_nat n →
  fill_row n (array_set t (Z.to_nat n) []) = Some (t ++ [Some (row_of n)]).
Proof.
  intros Hn Ht. unfold fill_row. rewrite <- Ht, array_set_end.
  replace (n + 1) with (Z.of_nat (Z.to_nat (n + 1))) by lia.
  rewrite fill_row_from by (done || lia). simpl.
  unfold row_of. by replace (Z.of_nat (Z.to_nat (n + 1))) with (n + 1) by lia.
Qed.

(** Invariant of the outer loop. *)
Lemma generate_from (len : nat) (j : Z) (t : Table) :
  0 ≤ j → length t = Z.to_nat j →
  foldl (fun acc n => triangle ← acc;
                      fill_row n (array_set triangle (Z.to_nat n) []))
        (Some t) (seqZ j (Z.of_nat len))
  = Some (t ++ ((fun n => Some (row_of n)) <$> seqZ j (Z.of_nat len))).
Proof.
  revert j t. induction len as [|len IH]; intros j t Hj Ht.
  - rewrite seqZ_nil by lia. simpl. by rewrite app_nil_r.
  - rewrite seqZ_cons by lia. simpl.
    rewrite fill_row_spec by done.
    replace (Z.pred (Z.of_nat (S len))) with (Z.of_nat len) by lia.
    rewrite IH; [|lia|rewrite length_app; simpl; lia].
    by rewrite <- app_assoc.
Qed.

(** The generator never throws, and returns the closed form. *)
Lemma generatePascalTriangle_table_of (rows : Z) :
  generatePascalTriangle rows = Some (table_of rows).
Proof.
  unfold generatePascalTriangle, table_of.
  destruct (decide (rows ≤ 0)) as [Hle|Hgt].
  - by rewrite seqZ_nil by done.
  - replace rows with (Z.of_nat (Z.to_nat rows)) by lia.
    by rewrite generate_from by done.
Qed.

Lemma length_row_of (n : Z) : length (row_of n) = Z.to_nat (n + 1).
Proof. unfold row_of. by rewrite length_fmap, length_seqZ. Qed.

Lemma length_table_of (rows : Z) : length (table_of rows) = Z.to_nat rows.
Proof. unfold table_of. by rewrite length_fmap, length_seqZ. Qed.

Lemma lookup_table_of (rows : Z) (n : nat) :
  Z.of_nat n < rows → table_of rows !! n = Some (Some (row_of (Z.of_nat n))).
Proof.
  intros Hn. unfold table_of.
  by rewrite list_lookup_fmap, lookup_seqZ_lt by done.
Qed.

Lemma lookup_row_of (n : Z) (k : nat) :
  Z.of_nat k ≤ n → row_of n !! k = Some (Some (combination n (Z.of_nat k))).
Proof.
  intros Hk. unfold row_of.
  by rewrite list_lookup_fmap, lookup_seqZ_lt by lia.
Qed.

End Table.

(** ** The page and its selector *)

Section Page.

Lemma omap_id_Some {A} (l : list A) : omap id (Some <$> l) = l.
Proof. induction l as [|x l IH]; [done|]. csimpl. by rewrite IH. Qed.

(** [imap] over an initial segment of the integers. *)
Lemma imap_seqZ_0 {B} (f : nat → Z → B) (len : Z) :
  imap f (seqZ 0 len) = (fun i => f (Z.to_nat i) i) <$> seqZ 0 len.
Proof.
  unfold seqZ. rewrite imap_fmap, <- list_fmap_compose.
  rewrite (imap_ext _ (fun j _ => f j (Z.of_nat j + 0))).
  - rewrite imap_seq_0, length_seq. apply list_fmap_ext.
    intros i x Hx. simpl. f_equal. lia.
  - intros i x Hx. apply lookup_seq in Hx as [-> _]. done.
Qed.

Lemma render_row_row_of (n : nat) :
  render_row n (row_of (Z.of_nat n)) = row_cells (Z.of_nat n).
Proof.
  unfold render_row, row_of, row_cells.
  rewrite imap_fmap, imap_seqZ_0.
  rewrite <- (omap_id_Some ((fun k => mkCell _ k _) <$> seqZ 0 _)).
  f_equal. rewrite <- list_fmap_compose. apply list_fmap_ext.
  intros i k Hk. apply lookup_seqZ in Hk as [-> _]. simpl.
  do 2 f_equal. lia.
Qed.

Lemma render_lines_table_of (rows : Z) :
  render_lines (table_of rows) = dom_of rows.
Proof.
  unfold render_lines, table_of, dom_of.
  rewrite imap_fmap, imap_seqZ_0.
  rewrite <- (omap_id_Some (row_cells <$> seqZ 0 rows)).
  f_equal. rewrite <- list_fmap_compose. apply list_fmap_ext.
  intros i n Hn. apply lookup_seqZ in Hn as [-> _]. simpl.
  replace (Z.to_nat (0 + Z.of_nat i)) with i by lia.
  by rewrite render_row_row_of.
Qed.

(** [render] succeeds and the page is [dom_of rows]. *)
Lemma render_dom_of (rows : Z) : render rows = Some (dom_of rows).
Proof.
  unfold render. rewrite generatePascalTriangle_table_of. simpl.
  by rewrite render_lines_table_of.
Qed.

Lemma find_app {A} (p : A → bool) (l1 l2 : list A) :
  find p (l1 ++ l2) = match find p l1 with
                      | Some x => Some x
                      | None => find p l2
                      end.
Proof. induction l1 as [|x l1 IH]; simpl; [done|]. by destruct (p x). Qed.

Abbreviation selects n k :=
  (fun c => bool_decide (data_n c = n) && bool_decide (data_k c = k)).

(** The selector inside one row. *)
Lemma find_row_cells (n' n k : Z) (len : nat) (j : Z) :
  find (selects n k)
       ((fun k => mkCell n' k (combination n' k)) <$> seqZ j (Z.of_nat len))
  = if decide (n' = n ∧ j ≤ k < j + Z.of_nat len)
    then Some (mkCell n k (combination n k)) else None.
Proof.
  revert j. induction len as [|len IH]; intros j.
  - rewrite seqZ_nil by lia. case_decide; [lia|done].
  - rewrite seqZ_cons by lia. csimpl.
    replace (Z.pred (Z.of_nat (S len))) with (Z.of_nat len) by lia.
    rewrite IH. repeat case_bool_decide; simpl; repeat case_decide;
      subst; try done; lia.
Qed.

Lemma find_in_row_cells (n' n k : Z) :
  find (selects n k) (row_cells n')
  = if decide (n' = n ∧ 0 ≤ k ≤ n) then Some (mkCell n k (combination n k))
    else None.
Proof.
  unfold row_cells.
  destruct (decide (0 ≤ n' + 1)) as [Hn|Hn].
  - replace (n' + 1) with (Z.of_nat (Z.to_nat (n' + 1))) by lia.
    rewrite find_row_cells. repeat case_decide; try done; lia.
  - rewrite seqZ_nil by lia. case_decide; [lia|done].
Qed.

(** The selector on a run of rows. *)
Lemma find_in_rows (n k : Z) (len : nat) (j : Z) :
  find (selects n k) (concat (row_cells <$> seqZ j (Z.of_nat len)))
  = if decide (j ≤ n < j + Z.of_nat len ∧ 0 ≤ k ≤ n)
    then Some (mkCell n k (combination n k)) else None.
Proof.
  revert j. induction len as [|len IH]; intros j.
  - rewrite seqZ_nil by lia. case_decide; [lia|done].
  - rewrite seqZ_cons by lia. csimpl.
    replace (Z.pred (Z.of_nat (S len))) with (Z.of_nat len) by lia.
    rewrite find_app, IH, find_in_row_cells.
    repeat case_decide; try done; lia.
Qed.

(** On the rendered page the selector finds cell [(n, k)] exactly when it
    lies in the triangle, and the cell carries [combination n k]. *)
Lemma querySelector_dom_of (rows n k : Z) :
  querySelector (dom_of rows) n k
  = if decide (0 ≤ k ≤ n ∧ n < rows)
    then Some (mkCell n k (combination n k)) else None.
Proof.
  unfold querySelector, dom_of. destruct (decide (0 ≤ rows)) as [Hr|Hr].
  - replace rows with (Z.of_nat (Z.to_nat rows)) at 1 by lia.
    rewrite find_in_rows. repeat case_decide; try done; lia.
  - rewrite seqZ_nil by lia. case_decide; [lia|done].
Qed.

End Page.

(** ** The fixed-column families *)

Section Families.

Lemma foldl_push_cell (dom : Page) (k : Z) (l : list Z) (acc : list Cell) :
  foldl (push_cell dom k) acc l
  = acc ++ omap (fun n => querySelector dom n k) l.
Proof.
  revert acc. induction l as [|n l IH]; intros acc; csimpl.
  - by rewrite app_nil_r.
  - rewrite IH. unfold push_cell.
    destruct (querySelector dom n k); [|done]. by rewrite <- app_assoc.
Qed.

Lemma omap_all_Some {A B} (f : A → option B) (g : A → B) (l : list A) :
  (∀ x, x ∈ l → f x = Some (g x)) → omap f l = g <$> l.
Proof.
  induction l as [|x l IH]; intros Hf; csimpl; [done|].
  rewrite Hf by left. rewrite IH; [done|]. intros y Hy. apply Hf. by right.
Qed.

(** Column [k >= 0] of the page, from row [k] down. *)
Lemma column_cells (rows k : Z) :
  0 ≤ k →
  foldl (push_cell (dom_of rows) k) [] (seqZ k (rows - k))
  = (fun n => mkCell n k (combination n k)) <$> seqZ k (rows - k).
Proof.
  intros Hk. rewrite foldl_push_cell. simpl. apply omap_all_Some.
  intros n Hn. apply elem_of_seqZ in Hn.
  rewrite querySelector_dom_of. case_decide; [done|lia].
Qed.

(** The guard [n >= 1] only drops row 0. *)
Lemma natural_guard (dom : Page) (l : list Z) (acc : list Cell) :
  Forall (fun n => 1 ≤ n) l →
  foldl (fun cells n => if decide (1 ≤ n) then push_cell dom 1 cells n
                        else cells) acc l
  = foldl (push_cell dom 1) acc l.
Proof.
  revert acc. induction l as [|n l IH]; intros acc Hl; [done|].
  inversion_clear Hl. simpl. case_decide; [|lia]. by apply IH.
Qed.

Lemma natural_loop (dom : Page) (rows : Z) :
  getNaturalNumberCells rows dom
  = foldl (push_cell dom 1) [] (seqZ 1 (rows - 1)).
Proof.
  unfold getNaturalNumberCells.
  destruct (decide (0 < rows)) as [Hr|Hr].
  - rewrite seqZ_cons by done. simpl.
    replace (Z.pred rows) with (rows - 1) by lia.
    apply natural_guard, Forall_seqZ. lia.
  - by rewrite !seqZ_nil by lia.
Qed.

Lemma combination_1 (n : Z) : combination n 1 = num n.
Proof.
  unfold combination. repeat case_bool_decide; simpl; try lia.
  - subst n. by rewrite <- num_1.
  - unfold combination_step. change (Z.of_nat 0 + 1) with 1.
    replace (n - 1 + 1) with n by lia.
    rewrite num_1. field. apply Q_apart_0_1.
Qed.

Lemma binomial_2 (n : nat) :
  2 * Z.of_nat (binomial n 2) = Z.of_nat n * (Z.of_nat n - 1).
Proof.
  pose proof (binomial_absorb n 1) as H2.
  pose proof (binomial_absorb n 0) as H1.
  rewrite binomial_0_r in H1. lia.
Qed.

Lemma combination_2 (n : Z) : 0 ≤ n → combination n 2 = num (n * (n - 1) / 2).
Proof.
  intros Hn. rewrite (combination_binomial_Z n 2) by lia. f_equal.
  change (Z.to_nat 2) with 2%nat.
  pose proof (binomial_2 (Z.to_nat n)) as H.
  rewrite Z2Nat.id in H by done.
  rewrite <- H, Z.mul_comm, Z.div_mul by done. done.
Qed.

End Families.

(** ** [isPrime] against trial division *)

Section Primality.

(** With enough fuel the loop returns, and it returns [true] exactly when
    no candidate [i, i + 6, i + 12, ...] up to [s], nor its companion two
    above, divides [n]. *)
Lemma isPrime_loop_spec (fuel : nat) (n s i : Z) :
  (0 < fuel)%nat → s < i + 6 * (Z.of_nat fuel - 1) →
  ∃ b, isPrime_loop fuel n s i = Some b ∧
       (b = true ↔ ∀ j, 0 ≤ j → i + 6 * j ≤ s →
                        Z.rem n (i + 6 * j) ≠ 0 ∧ Z.rem n (i + 6 * j + 2) ≠ 0).
Proof.
  revert i. induction fuel as [|fuel IH]; intros i Hpos Hfuel; [lia|].
  simpl. case_decide as Hi.
  - destruct (bool_decide (Z.rem n i = 0) || bool_decide (Z.rem n (i + 2) = 0))
      eqn:Hdiv.
    + exists false. split; [done|]. split; [done|]. intros Hall.
      destruct (Hall 0 ltac:(lia) ltac:(lia)) as [H1 H2].
      rewrite Z.mul_0_r, Z.add_0_r in H1, H2.
      apply orb_true_iff in Hdiv as [Hd|Hd]; by apply bool_decide_eq_true in Hd.
    + apply orb_false_iff in Hdiv as [Hd1 Hd2].
      apply bool_decide_eq_false in Hd1, Hd2.
      destruct (IH (i + 6)) as (b & Hb & Hiff); [lia|lia|].
      exists b. split; [done|]. rewrite Hiff. split.
      * intros Hall j Hj Hle. destruct (decide (j = 0)) as [->|Hj0].
        { by rewrite Z.mul_0_r, Z.add_0_r. }
        specialize (Hall (j - 1) ltac:(lia) ltac:(lia)).
        by replace (i + 6 + 6 * (j - 1)) with (i + 6 * j) in Hall by lia.
      * intros Hall j Hj Hle.
        specialize (Hall (j + 1) ltac:(lia) ltac:(lia)).
        by replace (i + 6 * (j + 1)) with (i + 6 + 6 * j) in Hall by lia.
  - exists true. split; [done|]. split; [|done]. intros _ j Hj Hle. lia.
Qed.

Lemma isPrime_reference_true (v : Z) :
  isPrime_reference v = true ↔
  1 < v ∧ ∀ d, 2 ≤ d ≤ Z.sqrt v → v mod d ≠ 0.
Proof.
  unfold isPrime_reference.
  rewrite andb_true_iff, bool_decide_eq_true, forallb_forall.
  split; intros [Hv Hall]; (split; [done|]).
  - intros d Hd Hmod. specialize (Hall d).
    rewrite <- list_elem_of_In, elem_of_seqZ in Hall.
    specialize (Hall ltac:(lia)).
    apply negb_true_iff, bool_decide_eq_false in Hall. done.
  - intros d Hd. rewrite <- list_elem_of_In, elem_of_seqZ in Hd.
    apply negb_true_iff, bool_decide_eq_false. apply Hall. lia.
Qed.

(** A divisor in [[2, sqrt v]] of a number [v > 3] that is neither even nor
    a multiple of three is [5 + 6 j] or [7 + 6 j]. *)
Lemma candidate_form (v d : Z) :
  v mod 2 ≠ 0 → v mod 3 ≠ 0 → 2 ≤ d → v mod d = 0 →
  ∃ j, 0 ≤ j ∧ (d = 5 + 6 * j ∨ d = 5 + 6 * j + 2).
Proof.
  intros H2 H3 Hd Hmod.
  apply Z.mod_divide in Hmod as [q Hq]; [|lia].
  pose proof (Z.div_mod d 6 ltac:(lia)) as Hd6.
  pose proof (Z.mod_pos_bound d 6 ltac:(lia)) as Hr.
  set (e := d / 6) in *. set (r := d mod 6) in *.
  assert (r = 0 ∨ r = 1 ∨ r = 2 ∨ r = 3 ∨ r = 4 ∨ r = 5) as Hcases by lia.
  destruct Hcases as [Hr0|[Hr1|[Hr2|[Hr3|[Hr4|Hr5]]]]].
  - exfalso. apply H2. apply Z.mod_divide; [lia|].
    exists (q * (3 * e)). lia.
  - exists (e - 1). split; [lia|]. right. lia.
  - exfalso. apply H2. apply Z.mod_divide; [lia|].
    exists (q * (3 * e + 1)). lia.
  - exfalso. apply H3. apply Z.mod_divide; [lia|].
    exists (q * (2 * e + 1)). lia.
  - exfalso. apply H2. apply Z.mod_divide; [lia|].
    exists (q * (3 * e + 2)). lia.
  - exists e. split; [lia|]. left. lia.
Qed.

(** A divisor just above the square root has a cofactor below it. *)
Lemma cofactor_below_sqrt (v d : Z) :
  25 ≤ v → 2 ≤ d ≤ Z.sqrt v + 2 → Z.sqrt v < d → v mod d = 0 →
  ∃ q, 2 ≤ q ≤ Z.sqrt v ∧ v mod q = 0.
Proof.
  intros Hv Hd Hgt Hmod.
  pose proof (Z.sqrt_spec v ltac:(lia)) as Hs. cbv zeta in Hs.
  assert (5 ≤ Z.sqrt v) as Hs5 by (apply Z.sqrt_le_square; lia).
  apply Z.mod_divide in Hmod as [q Hq]; [|lia].
  set (s := Z.sqrt v) in *. unfold Z.succ in Hs.
  assert (2 ≤ q) as Hq2.
  { destruct (decide (2 ≤ q)) as [|Hsmall]; [done|].
    assert (q * d ≤ 1 * d) by (apply Z.mul_le_mono_nonneg_r; lia). nia. }
  assert (q ≤ s) as Hqs.
  { destruct (decide (q ≤ s)) as [|Hbig]; [done|].
    assert ((s + 1) * (s + 1) ≤ q * d) by (apply Z.mul_le_mono_nonneg; lia).
    lia. }
  exists q. split; [done|].
  apply Z.mod_divide; [lia|]. exists d. lia.
Qed.

(** [isPrime] returns, and returns what trial division gives. *)
Lemma isPrime_reference_spec (v : Z) :
  isPrime v = Some (isPrime_reference v).
Proof.
  unfold isPrime. case_decide as H1.
  { f_equal. symmetry. apply not_true_is_false.
    rewrite isPrime_reference_true. lia. }
  case_decide as H3.
  { assert (v = 2 ∨ v = 3) as [-> | ->] by lia; done. }
  assert (0 < v) as Hpos by lia.
  pose proof (Z.sqrt_spec v ltac:(lia)) as Hs. cbv zeta in Hs.
  rewrite !Z.rem_mod_nonneg by lia.
  destruct (bool_decide (v mod 2 = 0) || bool_decide (v mod 3 = 0)) eqn:Hsmall.
  { f_equal. symmetry. apply not_true_is_false.
    rewrite isPrime_reference_true. intros [_ Hall].
    apply orb_true_iff in Hsmall as [Hd|Hd]; apply bool_decide_eq_true in Hd.
    - apply (Hall 2); [|done]. split; [done|].
      apply Z.sqrt_le_square; lia.
    - destruct (decide (v mod 2 = 0)) as [He|Ho].
      + apply (Hall 2); [|done]. split; [done|].
        apply Z.sqrt_le_square; lia.
      + apply (Hall 3); [|done]. split; [done|].
        apply Z.sqrt_le_square; [lia|lia|].
        pose proof (Z.div_mod v 3 ltac:(lia)) as E3.
        pose proof (Z.div_mod v 2 ltac:(lia)) as E2.
        pose proof (Z.mod_pos_bound v 2 ltac:(lia)). lia. }
  apply orb_false_iff in Hsmall as [Hd2 Hd3].
  apply bool_decide_eq_false in Hd2, Hd3.
  destruct (isPrime_loop_spec (S (Z.to_nat (Z.sqrt v))) v (Z.sqrt v) 5)
    as (b & Hb & Hiff); [lia|lia|].
  rewrite Hb. f_equal. apply eq_true_iff_eq.
  rewrite Hiff, isPrime_reference_true. split.
  - intros Hloop. split; [lia|]. intros d Hd Hmod.
    destruct (candidate_form v d Hd2 Hd3 ltac:(lia) Hmod) as (j & Hj & [-> | ->]).
    + destruct (Hloop j Hj ltac:(lia)) as [Hn _].
      rewrite Z.rem_mod_nonneg in Hn by lia. done.
    + destruct (Hloop j Hj ltac:(lia)) as [_ Hn].
      rewrite Z.rem_mod_nonneg in Hn by lia. done.
  - intros [_ Hall] j Hj Hle. rewrite !Z.rem_mod_nonneg by lia. split.
    + apply Hall. lia.
    + intros Hmod. destruct (decide (5 + 6 * j + 2 ≤ Z.sqrt v)) as [Hin|Hout].
      * apply (Hall (5 + 6 * j + 2)); [lia|done].
      * assert (5 * 5 ≤ Z.sqrt v * Z.sqrt v) as Hsq
          by (apply Z.mul_le_mono_nonneg; lia).
        destruct (cofactor_below_sqrt v (5 + 6 * j + 2)) as (q & Hq & Hqmod);
          [lia|lia|lia|done|].
        by apply (Hall q).
Qed.

End Primality.

(** ** Pattern extraction in closed form *)

Section Extraction.

Lemma extractPattern_natural (R : Z) :
  extractPattern natural R
  = Some ((fun n => mkCell n 1 (num n)) <$> seqZ 1 (R - 1)).
Proof.
  unfold extractPattern. rewrite render_dom_of. simpl. f_equal.
  rewrite natural_loop, column_cells by lia.
  apply list_fmap_ext. intros i n Hn. by rewrite combination_1.
Qed.

Lemma extractPattern_triangular (R : Z) :
  extractPattern triangular R
  = Some ((fun n => mkCell n 2 (num (n * (n - 1) / 2))) <$> seqZ 2 (R - 2)).
Proof.
  unfold extractPattern. rewrite render_dom_of. simpl. f_equal.
  unfold getTriangularNumberCells. rewrite column_cells by lia.
  apply list_fmap_ext. intros i n Hn. apply lookup_seqZ in Hn as [-> _].
  by rewrite combination_2 by lia.
Qed.


End Extraction.

(** ** Checks by evaluation over a range *)

Section Ranges.

(** A check that passes on a whole range passes at each of its points. *)
Lemma forallb_seqZ (f : Z → bool) (a len x : Z) :
  forallb f (seqZ a len) = true → a ≤ x < a + len → f x = true.
Proof.
  intros Hall Hx. rewrite forallb_forall in Hall. apply Hall.
  by apply list_elem_of_In, elem_of_seqZ.
Qed.

End Ranges.

Section Fibonacci.

(** Every page of 1 to 30 rows, checked by evaluation. *)
Lemma fibonacciLabels_upto_30 :
  forallb (fun R => bool_decide (fibonacciLabels R = Some (fibonacci_labels R)))
          (seqZ 1 30) = true.
Proof. vm_compute. reflexivity. Qed.

Lemma fibonacciLabels_fibonacci (R : Z) :
  1 ≤ R ≤ 30 → fibonacciLabels R = Some (fibonacci_labels R).
Proof.
  intros HR. apply (bool_decide_eq_true_1 _).
  apply (forallb_seqZ _ 1 30 R fibonacciLabels_upto_30). lia.
Qed.

End Fibonacci.

(** ** [combination] on doubles *)

Section Doubles.






End Doubles.

(** * The claims *)

(** C1. For [0 <= k <= n], [combination n k] is the binomial coefficient
    [n! / (k! (n - k)!)], both as an exact quotient of rationals and as the
    (exact) integer quotient; and row 4 of the table of 5 rows is
    [1, 4, 6, 4, 1], whose entries sum to 16, which is also the sum
    [drawRowSums] shows for that row ([2^4 = 16]). *)
Theorem combination_is_binomial_coefficient :
  (∀ n k : Z, 0 ≤ k ≤ n →
     combination n k
     = (num (factorial n) / (num (factorial k) * num (factorial (n - k))))%Qc
     ∧ combination n k
       = num (factorial n / (factorial k * factorial (n - k))))
  ∧ ∃ t row, generatePascalTriangle 5 = Some t
             ∧ t !! 4%nat = Some (Some row)
             ∧ row = Some ∘ num <$> [1; 4; 6; 4; 1]
             ∧ row_sum row = num 16
             ∧ (drawRowSums <$> render 5) ≫= (.!! 4%nat) = Some (4, 16).
Proof.
  split.
  - intros n k Hk. rewrite (combination_binomial_Z n k) by lia.
    pose proof (binomial_fact (Z.to_nat n) (Z.to_nat k) ltac:(lia)) as Hf.
    pose proof (lt_O_fact (Z.to_nat k)) as Hk0.
    pose proof (lt_O_fact (Z.to_nat (n - k))) as Hnk0.
    unfold factorial. replace (Z.to_nat n - Z.to_nat k)%nat
      with (Z.to_nat (n - k)) in Hf by lia.
    set (c := binomial (Z.to_nat n) (Z.to_nat k)) in *.
    set (fk := fact (Z.to_nat k)) in *. set (fnk := fact (Z.to_nat (n - k))) in *.
    assert (Z.of_nat (fact (Z.to_nat n))
            = Z.of_nat c * (Z.of_nat fk * Z.of_nat fnk)) as -> by lia.
    split.
    + rewrite (num_mul (Z.of_nat c)), num_mul. field.
      split; apply num_nonzero; lia.
    + by rewrite Z.div_mul by lia.
  - exists (table_of 5), (row_of 4). split; [apply generatePascalTriangle_table_of|].
    split; [done|]. split.
    + unfold row_of. change (seqZ 0 (4 + 1)) with [0; 1; 2; 3; 4]. csimpl.
      by rewrite !(combination_binomial_Z 4) by lia.
    + split; [by apply Qc_is_canon|]. vm_compute. reflexivity.
Qed.

Lemma combination_is_binomial_coefficient_witness :
  combination 4 2
  = (num (factorial 4) / (num (factorial 2) * num (factorial (4 - 2))))%Qc.
Proof.
  apply (proj1 combination_is_binomial_coefficient 4 2). lia.
Defined.




(** C3, as stated, fails: with 3 rows the family's only cell is the one of
    row 2, and its value is [C(2,2) = 1], not [2 * (2 + 1) / 2 = 3]. *)
Lemma triangular_not_nth_triangular_number :
  ¬ triangular_family_has (fun n => n * (n + 1) / 2) 3 2.
Proof.
  intros (cells & Hcells & Hcell).
  rewrite extractPattern_triangular in Hcells.
  injection Hcells as <-. vm_compute in Hcell. discriminate.
Qed.

(** C3, amended. For [R >= 3] and [2 <= n <= R - 1], the triangular family's
    cell of row [n] is the cell of column 2 and its value is [(n - 1) n / 2],
    the triangular number of index [n - 1]. *)
Theorem triangular_family_values (R n : Z) :
  3 ≤ R → 2 ≤ n ≤ R - 1 →
  triangular_family_has (fun n => (n - 1) * n / 2) R n.
Proof.
  intros HR Hn. eexists. split; [apply extractPattern_triangular|].
  rewrite list_lookup_fmap, lookup_seqZ_lt by lia. simpl.
  replace (2 + Z.of_nat (Z.to_nat (n - 2))) with n by lia.
  by rewrite (Z.mul_comm n).
Qed.

Lemma triangular_family_values_witness :
  triangular_family_has (fun n => (n - 1) * n / 2) 6 4.
Proof. apply (triangular_family_values 6 4); lia. Defined.

(** C4. For every integer [v >= 0], and so for every [v] in [[0, 1000]],
    [isPrime v] returns, and returns what trial division by all integers from
    2 up to the square root of [v] gives (with [v <= 1] not prime).  The
    policy is the implemented one: [v <= 1] is rejected, 2 and 3 are
    accepted, larger even numbers and multiples of 3 are rejected, and any
    other [v] is accepted exactly when no [5 + 6 j] up to the square root,
    nor the [7 + 6 j] next to it, divides [v]. *)
Theorem isPrime_matches_trial_division (v : Z) :
  0 ≤ v →
  isPrime v = Some (isPrime_reference v)
  ∧ (v ≤ 1 → isPrime v = Some false)
  ∧ (v = 2 ∨ v = 3 → isPrime v = Some true)
  ∧ (3 < v → v mod 2 = 0 ∨ v mod 3 = 0 → isPrime v = Some false)
  ∧ (3 < v → v mod 2 ≠ 0 → v mod 3 ≠ 0 →
     (isPrime v = Some true ↔
      ∀ j, 0 ≤ j → 5 + 6 * j ≤ Z.sqrt v →
           v mod (5 + 6 * j) ≠ 0 ∧ v mod (5 + 6 * j + 2) ≠ 0)).
Proof.
  intros Hv. split; [apply isPrime_reference_spec|].
  split. { intros H1. unfold isPrime. by case_decide. }
  split. { by intros [-> | ->]. }
  split.
  { intros H3 Hdiv. unfold isPrime. do 2 (case_decide; [lia|]).
    rewrite !Z.rem_mod_nonneg by lia.
    destruct Hdiv as [Hd|Hd]; rewrite Hd; simpl; [done|].
    by rewrite orb_true_r. }
  intros H3 Hn2 Hn3. unfold isPrime. do 2 (case_decide; [lia|]).
  rewrite !Z.rem_mod_nonneg by lia.
  rewrite !bool_decide_eq_false_2 by done. cbn [orb].
  pose proof (Z.sqrt_nonneg v) as Hs.
  destruct (isPrime_loop_spec (S (Z.to_nat (Z.sqrt v))) v (Z.sqrt v) 5)
    as (b & Hb & Hiff); [lia|lia|].
  rewrite Hb. split.
  - intros [= ->] j Hj Hle.
    destruct (proj1 Hiff eq_refl j Hj Hle) as [Hr1 Hr2].
    rewrite !Z.rem_mod_nonneg in Hr1, Hr2 by lia. done.
  - intros Hall. f_equal. apply Hiff. intros j Hj Hle.
    rewrite !Z.rem_mod_nonneg by lia. by apply Hall.
Qed.

Lemma isPrime_matches_trial_division_witness :
  isPrime 997 = Some (isPrime_reference 997).
Proof. apply (proj1 (isPrime_matches_trial_division 997 ltac:(lia))). Defined.

(** C5. For [0 <= R <= 30], [generatePascalTriangle R] returns a table of
    exactly [R] rows, and row [n] holds exactly [n + 1] coefficients: slot
    [k] of row [n] is [combination n k] for [k = 0, ..., n], and there is no
    further slot.  The bound 30 is the caller's; the proof does not use it. *)
Theorem generatePascalTriangle_shape (R : Z) :
  0 ≤ R ≤ 30 →
  ∃ t, generatePascalTriangle R = Some t
       ∧ length t = Z.to_nat R
       ∧ ∀ n, 0 ≤ n < R →
           ∃ row, t !! Z.to_nat n = Some (Some row)
                  ∧ length row = Z.to_nat (n + 1)
                  ∧ ∀ k, 0 ≤ k ≤ n →
                      row !! Z.to_nat k = Some (Some (combination n k)).
Proof.
  intros HR. exists (table_of R).
  split; [apply generatePascalTriangle_table_of|].
  split; [apply length_table_of|].
  intros n Hn. exists (row_of n). split; [|split].
  - rewrite lookup_table_of by lia. by rewrite Z2Nat.id by lia.
  - apply length_row_of.
  - intros k Hk. rewrite lookup_row_of by lia. by rewrite Z2Nat.id by lia.
Qed.

Lemma generatePascalTriangle_shape_witness :
  ∃ t, generatePascalTriangle 5 = Some t
       ∧ length t = Z.to_nat 5
       ∧ ∀ n, 0 ≤ n < 5 →
           ∃ row, t !! Z.to_nat n = Some (Some row)
                  ∧ length row = Z.to_nat (n + 1)
                  ∧ ∀ k, 0 ≤ k ≤ n →
                      row !! Z.to_nat k = Some (Some (combination n k)).
Proof. apply (generatePascalTriangle_shape 5). lia. Defined.

(** C6. Symmetry: for [0 <= k <= n], [combination n k = combination n (n - k)]. *)
Theorem combination_symmetry (n k : Z) :
  0 ≤ k ≤ n → combination n k = combination n (n - k).
Proof.
  intros Hk. rewrite !combination_binomial_Z by lia.
  rewrite (binomial_sym (Z.to_nat n) (Z.to_nat k)) by lia.
  by replace (Z.to_nat (n - k)) with (Z.to_nat n - Z.to_nat k)%nat by lia.
Qed.

Lemma combination_symmetry_witness : combination 7 2 = combination 7 (7 - 2).
Proof. apply (combination_symmetry 7 2). lia. Defined.

(** C7. Pascal's recurrence: for [0 < k < n],
    [combination n k = combination (n - 1) (k - 1) + combination (n - 1) k]. *)
Theorem combination_pascal_recurrence (n k : Z) :
  0 < k < n →
  combination n k = (combination (n - 1) (k - 1) + combination (n - 1) k)%Qc.
Proof.
  intros Hk. rewrite !combination_binomial_Z by lia.
  rewrite <- num_add, <- Nat2Z.inj_add.
  replace (Z.to_nat n) with (S (Z.to_nat (n - 1))) by lia.
  replace (Z.to_nat k) with (S (Z.to_nat (k - 1))) by lia.
  by rewrite binomial_succ.
Qed.

Lemma combination_pascal_recurrence_witness :
  combination 6 3 = (combination (6 - 1) (3 - 1) + combination (6 - 1) 3)%Qc.
Proof. apply (combination_pascal_recurrence 6 3). lia. Defined.

(** C8. The natural-number family of a page of [R] rows is the cells of
    column 1 in rows [1, ..., R - 1], in increasing row order, the cell of row
    [n] holding the value [n]; so for [R >= 2] its values are
    [1, 2, ..., R - 1], and for [R < 2] it is empty. *)
Theorem natural_family (R : Z) :
  extractPattern natural R
  = Some ((fun n => mkCell n 1 (num n)) <$> seqZ 1 (R - 1))
  ∧ (2 ≤ R →
     (fmap data_value <$> extractPattern natural R)
     = Some (num <$> seqZ 1 (R - 1)))
  ∧ (R < 2 → extractPattern natural R = Some []).
Proof.
  rewrite extractPattern_natural. split; [done|]. split.
  - intros _. simpl. by rewrite <- list_fmap_compose.
  - intros HR. by rewrite seqZ_nil by lia.
Qed.

Lemma natural_family_witness :
  (fmap data_value <$> extractPattern natural 6) = Some (num <$> seqZ 1 (6 - 1))
  ∧ extractPattern natural 1 = Some [].
Proof.
  split.
  - apply (proj1 (proj2 (natural_family 6))). lia.
  - apply (proj2 (proj2 (natural_family 1))). lia.
Defined.






(** * Further properties *)

Section Further.

(** Every pair [0 <= k <= n < 30], checked by evaluation on doubles. *)
Lemma double_value_upto_30 :
  forallb (fun n =>
             forallb (fun k => double_value_check n k (Qnum (combination n k)))
                     (seqZ 0 (n + 1)))
          (seqZ 0 30) = true.
Proof. vm_compute. reflexivity. Qed.

Lemma binomial_3 (n : nat) :
  6 * Z.of_nat (binomial n 3)
  = Z.of_nat n * (Z.of_nat n - 1) * (Z.of_nat n - 2).
Proof.
  pose proof (binomial_absorb n 2) as H3. pose proof (binomial_2 n) as H2.
  change (Z.of_nat 3) with 3 in H3. change (Z.of_nat 2) with 2 in H3.
  generalize dependent (Z.of_nat (binomial n 3)).
  generalize dependent (Z.of_nat (binomial n 2)). intros c2 H2 c3 H3.
  replace (6 * c3) with (2 * (3 * c3)) by lia. rewrite H3.
  replace (2 * ((Z.of_nat n - 2) * c2)) with ((Z.of_nat n - 2) * (2 * c2)) by lia.
  rewrite H2. lia.
Qed.

Lemma isPrime_reference_prime (v : Z) :
  isPrime_reference v = true ↔ Z.prime v.
Proof.
  rewrite isPrime_reference_true.
  unfold Z.prime. split; intros [Hv Hall]; (split; [done|]).
  - intros n Hn [q Hq].
    pose proof (Z.sqrt_spec v ltac:(lia)) as Hs. cbv zeta in Hs.
    unfold Z.succ in Hs. set (s := Z.sqrt v) in *.
    destruct (decide (n ≤ s)) as [Hle|Hgt].
    + apply (Hall n); [lia|]. apply Z.mod_divide; [lia|]. by exists q.
    + assert (2 ≤ q) as Hq2.
      { destruct (decide (2 ≤ q)) as [|Hsmall]; [done|].
        assert (q * n ≤ 1 * n) by (apply Z.mul_le_mono_nonneg_r; lia). lia. }
      assert (q ≤ s) as Hqs.
      { destruct (decide (q ≤ s)) as [|Hbig]; [done|].
        assert ((s + 1) * (s + 1) ≤ q * n)
          by (apply Z.mul_le_mono_nonneg; lia). lia. }
      apply (Hall q); [lia|]. apply Z.mod_divide; [lia|]. exists n. lia.
  - intros d Hd Hmod.
    pose proof (Z.sqrt_spec v ltac:(lia)) as Hs. cbv zeta in Hs.
    apply (Hall d).
    + split; [lia|]. assert (2 * Z.sqrt v ≤ Z.sqrt v * Z.sqrt v)
        by (apply Z.mul_le_mono_nonneg_r; lia). lia.
    + apply Z.mod_divide; [lia|done].
Qed.

(** Every page of up to 30 rows, checked by evaluation. *)
Lemma drawRowSums_upto_30 :
  forallb (fun R => bool_decide (drawRowSums <$> render R = Some (power_labels R)))
          (seqZ 0 31) = true.
Proof. vm_compute. reflexivity. Qed.

End Further.

(** X1. On the supported rows the exact model speaks for the code: for
    [0 <= k <= n < 30] the loop run on doubles returns, and what it returns
    is [===] the integer that [combination n k] is in exact arithmetic. *)
Theorem double_combination_exact (n k : Z) :
  0 ≤ k ≤ n → n < 30 →
  ∃ c r, combination n k = num c
         ∧ Double.returns n k r
         ∧ (r =? Double.of_Z c)%float = true.
Proof.
  intros Hk Hn. exists (Qnum (combination n k)).
  pose proof (forallb_seqZ _ 0 30 n double_value_upto_30 ltac:(lia)) as Hrow.
  pose proof (forallb_seqZ _ _ _ k Hrow ltac:(lia)) as Hall.
  unfold double_value_check in Hall.
  destruct (Double.combination 128 (Double.of_Z n) (Double.of_Z k))
    as [r|] eqn:Hrun; [|done].
  exists r. split; [by rewrite combination_binomial_Z by lia|].
  split; [by exists 128%nat|done].
Qed.

Lemma double_combination_exact_witness :
  ∃ c r, combination 29 14 = num c
         ∧ Double.returns 29 14 r
         ∧ (r =? Double.of_Z c)%float = true.
Proof. apply (double_combination_exact 29 14); lia. Defined.

(** X2. [isPrime v] returns [true] exactly when [v] is a prime number:
    [v > 1] and no [n] with [1 < n < v] divides [v]. *)
Theorem isPrime_is_prime (v : Z) :
  isPrime v = Some true ↔ Z.prime v.
Proof.
  rewrite isPrime_reference_spec, <- isPrime_reference_prime.
  split; [by intros [= ->]|by intros ->].
Qed.

(** The two ends of every row: [combination n 0 = 1] and
    [combination n n = 1], by the short cut taken before the loop. *)
Theorem combination_ends (n : Z) :
  combination n 0 = num 1 ∧ combination n n = num 1.
Proof.
  unfold combination. rewrite (bool_decide_eq_true_2 (0 = 0)) by done.
  rewrite (bool_decide_eq_true_2 (n = n)) by done.
  rewrite orb_true_r. simpl. by rewrite num_1.
Qed.

(** X3. The tetrahedral family of a page of [R] rows is the cells of column
    3 in rows [3, ..., R - 1], in increasing row order, the cell of row [n]
    holding [C(n, 3) = n (n - 1) (n - 2) / 6]: the values [1, 4, 10, 20, ...]. *)
Theorem tetrahedral_family (R : Z) :
  extractPattern tetrahedral R
  = Some ((fun n => mkCell n 3 (num (n * (n - 1) * (n - 2) / 6)))
          <$> seqZ 3 (R - 3)).
Proof.
  unfold extractPattern. rewrite render_dom_of. simpl. f_equal.
  unfold getTetrahedralNumberCells. rewrite column_cells by lia.
  apply list_fmap_ext. intros i n Hn. apply lookup_seqZ in Hn as [-> _].
  set (n := 3 + Z.of_nat i). rewrite (combination_binomial_Z n 3) by lia.
  do 2 f_equal. change (Z.to_nat 3) with 3%nat.
  pose proof (binomial_3 (Z.to_nat n)) as H.
  rewrite Z2Nat.id in H by lia.
  rewrite <- H, Z.mul_comm, Z.div_mul by done. done.
Qed.

(** X4. For every row count [R] in [[0, 30]], the labels [drawRowSums] draws
    are [2^n = rowSum] with [rowSum = 2^n], one for each row
    [n = 0, ..., R - 1]. *)
Theorem drawRowSums_powers_of_two (R : Z) :
  0 ≤ R ≤ 30 → drawRowSums <$> render R = Some (power_labels R).
Proof.
  intros HR. apply (bool_decide_eq_true_1 _).
  apply (forallb_seqZ _ 0 31 R drawRowSums_upto_30). lia.
Qed.

Lemma drawRowSums_powers_of_two_witness :
  drawRowSums <$> render 6 = Some (power_labels 6).
Proof. apply (drawRowSums_powers_of_two 6). lia. Defined.


(** * The page and the application *)

(** ** Parity and primality of binomial coefficients *)

Section Parity.

(** Parity of binomial coefficients: Lucas' rule for the prime 2. *)
Lemma binomial_parity_double (n k : nat) :
  Nat.odd (binomial (2 * n) (2 * k)) = Nat.odd (binomial n k)
  ∧ Nat.odd (binomial (2 * n) (2 * k + 1)) = false
  ∧ Nat.odd (binomial (2 * n + 1) (2 * k)) = Nat.odd (binomial n k)
  ∧ Nat.odd (binomial (2 * n + 1) (2 * k + 1)) = Nat.odd (binomial n k).
Proof.
  revert k. induction n as [|n IH]; intros k.
  - destruct k as [|k]; [done|].
    replace (2 * S k)%nat with (S (S (2 * k))) by lia.
    replace (2 * S k + 1)%nat with (S (S (S (2 * k)))) by lia. done.
  - assert (∀ j, Nat.odd (binomial (2 * S n) (2 * j)) = Nat.odd (binomial (S n) j))
      as H1.
    { intros [|j]; [by rewrite Nat.mul_0_r, !binomial_0_r|].
      replace (2 * S n)%nat with (S (2 * n + 1)) by lia.
      replace (2 * S j)%nat with (S (2 * j + 1)) by lia.
      rewrite !binomial_succ, !Nat.odd_add.
      destruct (IH j) as (_ & _ & _ & ->).
      replace (S (2 * j + 1)) with (2 * S j)%nat by lia.
      by destruct (IH (S j)) as (_ & _ & -> & _). }
    assert (∀ j, Nat.odd (binomial (2 * S n) (2 * j + 1)) = false) as H2.
    { intros j. replace (2 * S n)%nat with (S (2 * n + 1)) by lia.
      replace (2 * j + 1)%nat with (S (2 * j)) by lia.
      rewrite binomial_succ, Nat.odd_add.
      replace (S (2 * j)) with (2 * j + 1)%nat by lia.
      destruct (IH j) as (_ & _ & -> & ->). apply xorb_nilpotent. }
    split; [done|]. split; [done|]. split.
    + destruct k as [|k]; [by rewrite Nat.mul_0_r, !binomial_0_r|].
      replace (2 * S n + 1)%nat with (S (2 * S n)) by lia.
      replace (2 * S k)%nat with (S (2 * k + 1)) by lia.
      rewrite (binomial_succ (2 * S n)), Nat.odd_add, H2.
      replace (S (2 * k + 1)) with (2 * S k)%nat by lia.
      by rewrite H1.
    + replace (2 * S n + 1)%nat with (S (2 * S n)) by lia.
      replace (2 * k + 1)%nat with (S (2 * k)) by lia.
      rewrite binomial_succ, Nat.odd_add, H1.
      replace (S (2 * k)) with (2 * k + 1)%nat by lia.
      rewrite H2. apply xorb_false_r.
Qed.

(** A binomial coefficient is odd exactly when the binary digits of [k] are
    among those of [n]. *)
Lemma binomial_odd_land (n k : nat) :
  Nat.odd (binomial n k)
  = bool_decide (Z.land (Z.of_nat n) (Z.of_nat k) = Z.of_nat k).
Proof.
  revert k. induction (lt_wf n) as [n _ IH]. intros k.
  destruct (decide (n = 0%nat)) as [->|Hn].
  { destruct k as [|k]; [done|]. simpl binomial. rewrite Z.land_0_l.
    symmetry. apply bool_decide_eq_false. lia. }
  pose proof (Nat.div_mod_eq n 2) as En. pose proof (Nat.div_mod_eq k 2) as Ek.
  pose proof (Nat.mod_upper_bound n 2 ltac:(lia)) as Bn.
  pose proof (Nat.mod_upper_bound k 2 ltac:(lia)) as Bk.
  set (n' := (n / 2)%nat) in *. set (k' := (k / 2)%nat) in *.
  specialize (IH n' ltac:(lia) k').
  destruct (binomial_parity_double n' k') as (P00 & P01 & P10 & P11).
  assert (∀ (a b : nat) (x y : bool),
            Z.land (2 * Z.of_nat a + Z.b2z x) (2 * Z.of_nat b + Z.b2z y)
            = 2 * Z.land (Z.of_nat a) (Z.of_nat b) + Z.b2z (x && y)) as Hland.
  { intros a b x y. apply Z.bits_inj'. intros i Hi.
    rewrite Z.land_spec.
    destruct (decide (i = 0)) as [->|Hi0].
    - by rewrite !Z.testbit_0_r.
    - replace i with (Z.succ (Z.pred i)) by lia.
      rewrite !Z.testbit_succ_r by lia. by rewrite Z.land_spec. }
  assert ((n mod 2 = 0 ∨ n mod 2 = 1) ∧ (k mod 2 = 0 ∨ k mod 2 = 1))%nat
    as [[Rn|Rn] [Rk|Rk]] by lia; rewrite Rn in En; rewrite Rk in Ek.
  - rewrite En, Ek, !Nat.add_0_r, P00, IH.
    replace (Z.of_nat (2 * n')) with (2 * Z.of_nat n' + Z.b2z false) by (simpl; lia).
    replace (Z.of_nat (2 * k')) with (2 * Z.of_nat k' + Z.b2z false) by (simpl; lia).
    rewrite Hland. simpl Z.b2z. apply bool_decide_ext. lia.
  - rewrite En, Ek, !Nat.add_0_r, P01.
    replace (Z.of_nat (2 * n')) with (2 * Z.of_nat n' + Z.b2z false) by (simpl; lia).
    replace (Z.of_nat (2 * k' + 1)) with (2 * Z.of_nat k' + Z.b2z true) by (simpl; lia).
    rewrite Hland. simpl Z.b2z. symmetry. apply bool_decide_eq_false. lia.
  - rewrite En, Ek, !Nat.add_0_r, P10, IH.
    replace (Z.of_nat (2 * n' + 1)) with (2 * Z.of_nat n' + Z.b2z true) by (simpl; lia).
    replace (Z.of_nat (2 * k')) with (2 * Z.of_nat k' + Z.b2z false) by (simpl; lia).
    rewrite Hland. simpl Z.b2z. apply bool_decide_ext. lia.
  - rewrite En, Ek, P11, IH.
    replace (Z.of_nat (2 * n' + 1)) with (2 * Z.of_nat n' + Z.b2z true) by (simpl; lia).
    replace (Z.of_nat (2 * k' + 1)) with (2 * Z.of_nat k' + Z.b2z true) by (simpl; lia).
    rewrite Hland. simpl Z.b2z. apply bool_decide_ext. lia.
Qed.

Lemma odd_of_nat (m : nat) : Z.odd (Z.of_nat m) = Nat.odd m.
Proof.
  assert (Z.odd (Z.of_nat m) = Nat.odd m ∧ Z.even (Z.of_nat m) = Nat.even m)
    as [? _]; [|done].
  induction m as [|m [IHo IHe]]; [done|].
  rewrite Nat2Z.inj_succ, Z.odd_succ, Z.even_succ, Nat.odd_succ, Nat.even_succ.
  done.
Qed.

Lemma odd_rem (z : Z) : 0 ≤ z → bool_decide (Z.rem z 2 = 1) = Z.odd z.
Proof.
  intros Hz. rewrite Z.rem_mod_nonneg by lia.
  rewrite Zmod_odd. by destruct (Z.odd z).
Qed.

Lemma combination_odd (n k : Z) :
  0 ≤ k ≤ n →
  Z.odd (Z.of_nat (binomial (Z.to_nat n) (Z.to_nat k)))
  = bool_decide (Z.land n k = k).
Proof.
  intros Hk. pose proof (binomial_odd_land (Z.to_nat n) (Z.to_nat k)) as H.
  rewrite !Z2Nat.id in H by lia. by rewrite odd_of_nat.
Qed.







End Parity.

(** ** The lines of [drawConnections] *)

Section Connections.

Lemma lookup_row_cells (n : Z) (j : nat) :
  Z.of_nat j ≤ n → row_cells n !! j = Some (cell_of n (Z.of_nat j)).
Proof.
  intros Hj. unfold row_cells.
  by rewrite list_lookup_fmap, lookup_seqZ_lt by lia.
Qed.

Lemma length_row_cells (n : Z) : length (row_cells n) = Z.to_nat (n + 1).
Proof. unfold row_cells. by rewrite length_fmap, length_seqZ. Qed.

Lemma lookup_dom_of (R : Z) (i : nat) :
  Z.of_nat i < R → dom_of R !! i = Some (row_cells (Z.of_nat i)).
Proof.
  intros Hi. unfold dom_of. by rewrite list_lookup_fmap, lookup_seqZ_lt by lia.
Qed.

Lemma length_dom_of (R : Z) : length (dom_of R) = Z.to_nat R.
Proof. unfold dom_of. by rewrite length_fmap, length_seqZ. Qed.

Lemma connect_lines_rows (n : Z) :
  0 ≤ n →
  connect_lines (row_cells n) (row_cells (n + 1))
  = concat ((fun k => [(cell_of n k, cell_of (n + 1) k);
                       (cell_of n k, cell_of (n + 1) (k + 1))])
            <$> seqZ 0 (n + 1)).
Proof.
  intros Hn. unfold connect_lines. f_equal.
  unfold row_cells at 2. rewrite imap_fmap, imap_seqZ_0.
  apply list_fmap_ext. intros i k Hk. apply lookup_seqZ in Hk as [-> Hi].
  simpl. unfold connect_cell. rewrite length_row_cells.
  rewrite !decide_True by lia.
  rewrite !lookup_row_cells by lia. simpl.
  replace (Z.of_nat (Z.to_nat (0 + Z.of_nat i))) with (0 + Z.of_nat i) by lia.
  replace (Z.of_nat (Z.to_nat (0 + Z.of_nat i) + 1)) with (0 + Z.of_nat i + 1)
    by lia.
  done.
Qed.

Lemma foldl_app_concat {A B} (f : B → list A) (l : list B) (acc : list A) :
  foldl (fun acc x => acc ++ f x) acc l = acc ++ concat (f <$> l).
Proof.
  revert acc. induction l as [|x l IH]; intros acc; csimpl.
  - by rewrite app_nil_r.
  - by rewrite IH, app_assoc.
Qed.

Lemma drawConnections_dom_of (R : Z) :
  drawConnections (dom_of R) = connections_of R.
Proof.
  unfold drawConnections, connections_of.
  rewrite foldl_app_concat, length_dom_of. simpl. f_equal.
  unfold seqZ. rewrite <- list_fmap_compose.
  replace (Z.to_nat (R - 1)) with (Z.to_nat R - 1)%nat by lia.
  apply list_fmap_ext. intros j i Hi. apply lookup_seq in Hi as [-> Hj].
  simpl in *. rewrite !lookup_dom_of by lia. simpl.
  rewrite <- connect_lines_rows by lia. do 2 f_equal; lia.
Qed.


Lemma elem_of_concat {A} (x : A) (ls : list (list A)) :
  x ∈ concat ls ↔ ∃ l, x ∈ l ∧ l ∈ ls.
Proof.
  rewrite list_elem_of_In, in_concat. split.
  - intros (l & Hl & Hx). exists l. by rewrite !list_elem_of_In.
  - intros (l & Hx & Hl). exists l. by rewrite <- !list_elem_of_In.
Qed.


Lemma length_connections_upto (m : nat) :
  length (concat ((fun n => concat ((fun k => [(cell_of n k, cell_of (n + 1) k);
                                               (cell_of n k, cell_of (n + 1) (k + 1))])
                                    <$> seqZ 0 (n + 1)))
                  <$> seqZ 0 (Z.of_nat m)))
  = (m * (m + 1))%nat.
Proof.
  induction m as [|m IH]; [done|].
  rewrite seqZ_S, fmap_app, concat_app, length_app, IH. simpl.
  rewrite app_nil_r.
  assert (∀ l : list Z,
            length (concat ((fun k => [(cell_of (0 + Z.of_nat m) k,
                                        cell_of (0 + Z.of_nat m + 1) k);
                                       (cell_of (0 + Z.of_nat m) k,
                                        cell_of (0 + Z.of_nat m + 1) (k + 1))])
                            <$> l)) = (2 * length l)%nat) as Hlen.
  { induction l as [|x l IHl]; [done|]. csimpl. rewrite IHl. lia. }
  rewrite Hlen, length_seqZ. lia.
Qed.

Lemma length_connections_of (R : Z) :
  1 ≤ R → Z.of_nat (length (connections_of R)) = R * (R - 1).
Proof.
  intros HR. unfold connections_of.
  replace (R - 1) with (Z.of_nat (Z.to_nat (R - 1))) at 1 by lia.
  rewrite length_connections_upto. nia.
Qed.

(** The cells of a page. *)
Lemma elem_of_dom_of (R : Z) (c : Cell) :
  c ∈ concat (dom_of R) ↔ ∃ n k, 0 ≤ k ≤ n ∧ n < R ∧ c = cell_of n k.
Proof.
  rewrite elem_of_concat. unfold dom_of, row_cells. split.
  - intros (l & Hc & Hl).
    apply list_elem_of_fmap in Hl as (n & -> & Hn%elem_of_seqZ).
    apply list_elem_of_fmap in Hc as (k & -> & Hk%elem_of_seqZ).
    exists n, k. split; [lia|]. split; [lia|done].
  - intros (n & k & Hk & Hn & ->).
    exists ((fun k => mkCell n k (combination n k)) <$> seqZ 0 (n + 1)). split.
    + apply list_elem_of_fmap. exists k. split; [done|]. apply elem_of_seqZ. lia.
    + apply list_elem_of_fmap. exists n. split; [done|]. apply elem_of_seqZ. lia.
Qed.

End Connections.

(** ** The cells of [getFibonacciCells] *)

Section FibonacciCells.

Lemma foldl_scan_diagonal (dom : Page) (m : Z) (l : list Z) (cs : list Cell)
    (sum : Z) :
  fst (foldl (fun '(diagonalCells, sum) i =>
           match querySelector dom (m - i) i with
           | Some cell => (diagonalCells ++ [cell],
                           sum + parseInt_value (data_value cell))
           | None => (diagonalCells, sum)
           end) (cs, sum) l)
  = cs ++ omap (fun i => querySelector dom (m - i) i) l.
Proof.
  revert cs sum. induction l as [|i l IH]; intros cs sum; csimpl.
  - by rewrite app_nil_r.
  - destruct (querySelector dom (m - i) i); rewrite IH; [|done].
    by rewrite <- app_assoc.
Qed.

Lemma omap_all_None {A B} (f : A → option B) (l : list A) :
  (∀ x, x ∈ l → f x = None) → omap f l = [].
Proof.
  induction l as [|x l IH]; intros Hf; csimpl; [done|].
  rewrite Hf by left. apply IH. intros y Hy. apply Hf. by right.
Qed.

Lemma scan_diagonal_dom_of (R m : Z) :
  0 ≤ m < R → fst (scan_diagonal (dom_of R) m) = diagonal_cells m.
Proof.
  intros Hm. unfold scan_diagonal. rewrite foldl_scan_diagonal. simpl.
  replace (m + 1) with ((m `div` 2 + 1) + (m - m `div` 2)) by lia.
  pose proof (Z.div_mod m 2 ltac:(lia)) as Hd.
  pose proof (Z.mod_pos_bound m 2 ltac:(lia)) as Hb.
  rewrite seqZ_app by lia. rewrite omap_app.
  rewrite (omap_all_Some _ (fun i => cell_of (m - i) i)).
  - rewrite omap_all_None; [by rewrite app_nil_r|].
    intros i Hi%elem_of_seqZ. rewrite querySelector_dom_of.
    case_decide; [lia|done].
  - intros i Hi%elem_of_seqZ. rewrite querySelector_dom_of.
    case_decide; [done|lia].
Qed.

Lemma fibonacci_step_cells (dom : Page) (st : FibState) (m : Z) :
  fib_cells (fibonacci_step dom st m)
  = fib_cells st ++ fst (scan_diagonal dom m).
Proof.
  unfold fibonacci_step. destruct (scan_diagonal dom m) as [cs sum]. simpl.
  case_decide as Hl; [done|].
  destruct cs; [by rewrite app_nil_r|simpl in Hl; lia].
Qed.

Lemma foldl_fibonacci_step_cells (dom : Page) (l : list Z) (st : FibState) :
  fib_cells (foldl (fibonacci_step dom) st l)
  = fib_cells st ++ concat ((fun m => fst (scan_diagonal dom m)) <$> l).
Proof.
  revert st. induction l as [|m l IH]; intros st; csimpl.
  - by rewrite app_nil_r.
  - rewrite IH, fibonacci_step_cells. by rewrite <- app_assoc.
Qed.

Lemma fibonacci_cells_dom_of (R : Z) :
  fib_cells (getFibonacciCells R (dom_of R))
  = concat (diagonal_cells <$> seqZ 0 R).
Proof.
  unfold getFibonacciCells. rewrite foldl_fibonacci_step_cells. simpl. f_equal.
  apply list_fmap_ext. intros ? m Hm%lookup_seqZ. apply scan_diagonal_dom_of. lia.
Qed.

End FibonacciCells.

(** ** The handlers: what every sequence of events preserves *)

Section Interaction.
Import App.

Lemma run_invariant (P : App → Prop) (es : list Event) (a : App) :
  (∀ e a, P a → P (handle e a)) → P a → P (run es a).
Proof.
  intros Hstep. revert a. unfold run.
  induction es as [|e es IH]; intros a Ha; [done|]. simpl. by apply IH, Hstep.
Qed.

Lemma rows_invariant (e : Event) (a : App) :
  minRows (state a) = 1 ∧ maxRows (state a) = 30 ∧ 1 ≤ rows (state a) ≤ 30 →
  minRows (state (handle e a)) = 1 ∧ maxRows (state (handle e a)) = 30
  ∧ 1 ≤ rows (state (handle e a)) ≤ 30.
Proof.
  intros (Hmin & Hmax & Hrows).
  destruct e as [| |p| |[v|]| | | | | | | | |n k value]; simpl;
    repeat case_decide; repeat case_match; simpl; lia.
Qed.

Lemma bounds_reachable (a0 : App) (es : list Event) :
  initial a0 →
  minRows (state (run es a0)) = 1 ∧ maxRows (state (run es a0)) = 30
  ∧ 1 ≤ rows (state (run es a0)) ≤ 30.
Proof.
  intros (Hs & _ & _).
  apply (run_invariant (fun a => minRows (state a) = 1 ∧ maxRows (state a) = 30
                                 ∧ 1 ≤ rows (state a) ≤ 30)).
  - apply rows_invariant.
  - rewrite Hs. simpl. lia.
Qed.

Lemma features_invariant (e : Event) (a : App) :
  (features_on (state a) ≤ 1)%nat → (features_on (state (handle e a)) ≤ 1)%nat.
Proof.
  destruct a as [[r mx mn sl uc un sym cp sie sums pri] [[[? ?] ?]|] ec sa sb sib];
    unfold features_on; simpl; intros Hone;
    destruct e as [| |p| |[v|]| | | | | | | | |n k value]; simpl;
    repeat case_decide; simpl;
    destruct sym, cp, sie, sums, pri; simpl in *; lia.
Qed.

Lemma panel_invariant (e : Event) (a : App) :
  panel_in_sync a → panel_in_sync (handle e a).
Proof.
  unfold panel_in_sync.
  destruct a as [[r mx mn sl uc un sym cp sie sums pri] [[[n0 k0] v0]|] ec sa sb sib];
    simpl; intros Hsync latex;
    destruct e as [| |p| |[v|]| | | | | | | | |n k value]; simpl;
    repeat case_decide; simpl; try (by apply Hsync); try done;
    try (by destruct sym, sie, sums, pri; simpl; apply Hsync);
    try (intros [= <-]; eauto).
  intros Hec. by destruct (Hsync _ Hec) as (? & ? & ? & ? & _).
Qed.

Lemma decorations_invariant (e : Event) (a : App) :
  decorations_follow a → decorations_follow (handle e a).
Proof.
  unfold decorations_follow.
  destruct a as [[r mx mn sl uc un sym cp sie sums pri] [[[n0 k0] v0]|] ec sa sb sib];
    simpl; intros (H1 & H2 & H3);
    destruct e as [| |p| |[v|]| | | | | | | | |n k value]; simpl;
    repeat case_decide; simpl; try done;
    destruct sym, sie, sums, pri; simpl in *; auto.
Qed.

Lemma initial_app0 : initial app0.
Proof. by repeat split. Qed.

(** On the rows the page can show, the loop run on doubles returns the
    integer of the exact model. *)
Lemma double_value_cell (n k : Z) :
  0 ≤ k ≤ n → n < 30 →
  ∃ r, Double.returns n k r
       ∧ (r =? Double.of_Z (Qnum (combination n k)))%float = true.
Proof.
  intros Hk Hn.
  pose proof (forallb_seqZ _ 0 30 n double_value_upto_30 ltac:(lia)) as Hrow.
  pose proof (forallb_seqZ _ _ _ k Hrow ltac:(lia)) as Hall.
  unfold double_value_check in Hall.
  destruct (Double.combination 128 (Double.of_Z n) (Double.of_Z k))
    as [r|] eqn:Hrun; [|done].
  exists r. split; [by exists 128%nat|done].
Qed.

End Interaction.

(** ** The timer of [debounce] *)

Section DebounceProperties.
Import Debounce.
Context {A : Type} (wait : Z).

Lemma debounced_one_timer (args : A) (e : Env A) :
  one_timer e →
  debounced wait args e
  = mkEnv (now e) (Pos.succ (next_id e))
          [mkTimer (next_id e) (now e + wait) args] (Some (next_id e))
          (executed e).
Proof.
  intros [Hp|(t & Hp & Ht)]; unfold debounced, setTimeout.
  - destruct (timeout e); simpl; rewrite Hp; done.
  - rewrite Ht. simpl. rewrite Hp.
    rewrite filter_cons_False by (intros H; by apply H). done.
Qed.

Lemma one_timer_handle (ev : Event A) (e : Env A) :
  one_timer e → one_timer (handle wait ev e).
Proof.
  intros He. destruct ev as [args|dt]; simpl.
  - rewrite debounced_one_timer by done. right. by eexists.
  - destruct He as [Hp|(t & Hp & Ht)]; unfold one_timer, elapse; simpl;
      rewrite Hp.
    + by left.
    + destruct (decide (now e + Z.max 0 dt < due t)).
      * rewrite filter_cons_True by done. right. by exists t.
      * rewrite filter_cons_False by done. by left.
Qed.

Lemma one_timer_run (evs : list (Event A)) (e : Env A) :
  one_timer e → one_timer (run wait evs e).
Proof.
  revert e. unfold run. induction evs as [|ev evs IH]; intros e He; [done|].
  simpl. by apply IH, one_timer_handle.
Qed.

Lemma debounce_run_app (evs1 evs2 : list (Event A)) (e : Env A) :
  run wait (evs1 ++ evs2) e = run wait evs2 (run wait evs1 e).
Proof. unfold run. by rewrite foldl_app. Qed.

(** A call followed by a pause shorter than [wait] runs nothing. *)
Lemma call_pause (args : A) (dt : Z) (e : Env A) :
  one_timer e → 0 ≤ dt < wait →
  executed (elapse dt (debounced wait args e)) = executed e.
Proof.
  intros He Hdt. rewrite debounced_one_timer by done. unfold elapse. simpl.
  rewrite filter_cons_False by (simpl; lia). simpl. by rewrite app_nil_r.
Qed.

Lemma burst_runs_nothing (calls : list (A * Z)) (e : Env A) :
  one_timer e → Forall (fun c => 0 ≤ c.2 < wait) calls →
  executed (run wait (burst calls) e) = executed e.
Proof.
  intros He Hcalls. revert e He.
  induction Hcalls as [|[args dt] calls Hdt _ IH]; intros e He; [done|].
  change (burst ((args, dt) :: calls))
    with ([Call args; Elapse dt] ++ burst calls).
  rewrite debounce_run_app.
  rewrite IH.
  - by apply call_pause.
  - by apply one_timer_run.
Qed.

Lemma runs_called_one_timer (e : Env A) (cs : list A) :
  runs_called e cs → one_timer e.
Proof.
  intros [[Hp _]|(t & cs' & Hp & Ht & _)]; [by left|right; by exists t].
Qed.

Lemma runs_called_sublist (e : Env A) (cs : list A) :
  runs_called e cs → sublist (executed e) cs.
Proof.
  intros [[_ Hs]|(t & cs' & _ & _ & -> & Hs)]; [done|].
  by apply sublist_inserts_r.
Qed.

Lemma runs_called_handle (ev : Event A) (e : Env A) (cs : list A) :
  runs_called e cs → runs_called (handle wait ev e) (cs ++ called [ev]).
Proof.
  intros He. destruct ev as [args|dt]; simpl.
  - rewrite debounced_one_timer by (by eapply runs_called_one_timer).
    right. eexists _, cs. simpl. repeat split.
    by eapply runs_called_sublist.
  - rewrite app_nil_r.
    destruct He as [[Hp Hs]|(t & cs' & Hp & Ht & -> & Hs)].
    + left. unfold elapse. simpl. rewrite Hp. simpl. by rewrite app_nil_r.
    + unfold runs_called, elapse. simpl. rewrite Hp.
      destruct (decide (now e + Z.max 0 dt < due t)).
      * rewrite filter_cons_True by done. rewrite filter_cons_False by lia.
        simpl. rewrite app_nil_r. right. by exists t, cs'.
      * rewrite filter_cons_False by done. rewrite filter_cons_True by lia.
        left. split; [done|]. simpl. by apply sublist_app.
Qed.

Lemma runs_called_run (evs : list (Event A)) (e : Env A) (cs : list A) :
  runs_called e cs → runs_called (run wait evs e) (cs ++ called evs).
Proof.
  revert e cs. induction evs as [|ev evs IH]; intros e cs He.
  - by rewrite app_nil_r.
  - change (ev :: evs) with ([ev] ++ evs). rewrite debounce_run_app.
    unfold called. rewrite omap_app. fold (called [ev]) (called evs).
    rewrite app_assoc. apply IH. by apply runs_called_handle.
Qed.

End DebounceProperties.

(** ** The cells of [drawVerticalSymmetryLine] *)

Section SymmetryLine.
Context (centerX : Cell → Qc) (x : Qc).

Lemma filter_row_cells (n n' : Z) :
  filter (fun c => data_n c = n) (row_cells n')
  = if decide (n' = n) then row_cells n' else [].
Proof.
  unfold row_cells. generalize (seqZ 0 (n' + 1)). intros l.
  destruct (decide (n' = n)) as [Hn|Hn].
  - induction l as [|k l IH]; [done|]. csimpl.
    rewrite filter_cons_True by done. by rewrite IH.
  - induction l as [|k l IH]; [done|]. csimpl.
    by rewrite filter_cons_False by done.
Qed.

Lemma filter_concat_rows (n : Z) (l : list Z) :
  filter (fun c => data_n c = n) (concat (row_cells <$> l))
  = concat ((fun n' => if decide (n' = n) then row_cells n' else []) <$> l).
Proof.
  induction l as [|n' l IH]; [done|]. csimpl.
  by rewrite filter_app, filter_row_cells, IH.
Qed.

Lemma concat_nil_fmap {A B} (f : A → list B) (l : list A) :
  (∀ a, a ∈ l → f a = []) → concat (f <$> l) = [].
Proof.
  induction l as [|a l IH]; intros Hf; [done|]. csimpl.
  rewrite Hf by left. apply IH. intros b Hb. apply Hf. by right.
Qed.

Lemma querySelectorAll_row_dom_of (R n : Z) :
  0 ≤ n < R → querySelectorAll_row (dom_of R) n = row_cells n.
Proof.
  intros Hn. unfold querySelectorAll_row, dom_of. rewrite filter_concat_rows.
  replace R with (n + (1 + (R - n - 1))) by lia.
  rewrite !seqZ_app by lia. rewrite !fmap_app, !concat_app.
  rewrite concat_nil_fmap.
  2:{ intros a Ha%elem_of_seqZ. by rewrite decide_False by lia. }
  rewrite (concat_nil_fmap _ (seqZ (0 + n + 1) _)).
  2:{ intros a Ha%elem_of_seqZ. by rewrite decide_False by lia. }
  simpl. rewrite decide_True by lia. rewrite !app_nil_r. done.
Qed.

Lemma closest_far (l : list Cell) (acc : option Cell * option Qc) :
  (∀ c, c ∈ l → (0 < distance_to centerX x c)%Qc) →
  (acc.2 = None ∨ ∃ d, acc.2 = Some d ∧ (0 < d)%Qc) →
  (foldl (closest_step centerX x) acc l).2 = None
  ∨ ∃ d, (foldl (closest_step centerX x) acc l).2 = Some d ∧ (0 < d)%Qc.
Proof.
  revert acc. induction l as [|c l IH]; intros [o md] Hl Hacc; [done|]. simpl.
  apply IH; [intros c' Hc'; apply Hl; by right|].
  right. unfold closest_step. fold (distance_to centerX x c). simpl in *.
  destruct Hacc as [->|(d & -> & Hd)].
  - exists (distance_to centerX x c). split; [done|]. apply Hl. left.
  - destruct (Qclt_le_dec (distance_to centerX x c) d); simpl; [|by exists d].
    exists (distance_to centerX x c). split; [done|]. apply Hl. left.
Qed.

Lemma closest_kept (l : list Cell) (c : Cell) :
  foldl (closest_step centerX x) (Some c, Some 0%Qc) l = (Some c, Some 0%Qc).
Proof.
  induction l as [|c' l IH]; [done|]. simpl. unfold closest_step at 2. simpl.
  destruct (Qclt_le_dec _ _) as [Hlt|Hle]; [|done].
  exfalso. apply (Qclt_not_le _ _ Hlt), Qcabs.Qcabs_nonneg.
Qed.

Lemma closestCell_centre (l1 l2 : list Cell) (c : Cell) :
  (∀ c', c' ∈ l1 → (0 < distance_to centerX x c')%Qc) → distance_to centerX x c = 0%Qc →
  closestCell centerX x (l1 ++ c :: l2) = Some c.
Proof.
  intros Hl1 Hc. unfold closestCell. rewrite foldl_app. simpl.
  destruct (closest_far l1 (None, None) Hl1 ltac:(by left)) as [Hn|(d & Hd & Hpos)].
  - unfold closest_step at 2. rewrite Hn. fold (distance_to centerX x c). rewrite Hc.
    by rewrite closest_kept.
  - unfold closest_step at 2. rewrite Hd. fold (distance_to centerX x c). rewrite Hc.
    destruct (Qclt_le_dec 0%Qc d) as [_|Hle].
    + by rewrite closest_kept.
    + exfalso. by apply (Qclt_not_le _ _ Hpos).
Qed.

End SymmetryLine.

Section Layout.
Context (centerX : Cell → Qc) (x0 h : Qc).
Hypothesis h_pos : (0 < h)%Qc.
Hypothesis layout : ∀ n k, centerX (cell_of n k) = (x0 + num (2 * k - n) * h)%Qc.

Lemma distance_layout (n k : Z) :
  distance_to centerX (centerX (cell_of 0 0)) (cell_of n k)
  = Qcabs.Qcabs (num (2 * k - n) * h).
Proof.
  unfold distance_to. rewrite !layout. f_equal.
  change (2 * 0 - 0) with 0. rewrite num_0. ring.
Qed.

Lemma distance_centre (m : Z) :
  distance_to centerX (centerX (cell_of 0 0)) (cell_of (2 * m) m) = 0%Qc.
Proof.
  rewrite distance_layout. replace (2 * m - 2 * m) with 0 by lia.
  rewrite num_0. rewrite Qcmult_0_l. by apply Qc_is_canon.
Qed.

Lemma distance_off_centre (n k : Z) :
  2 * k ≠ n → (0 < distance_to centerX (centerX (cell_of 0 0)) (cell_of n k))%Qc.
Proof.
  intros Hk. rewrite distance_layout.
  destruct (Qcle_lt_or_eq _ _ (Qcabs.Qcabs_nonneg (num (2 * k - n) * h))) as [Hlt|Heq];
    [done|].
  symmetry in Heq. apply Qcabs.Qcabs_null in Heq.
  apply Qcmult_integral in Heq as [Hz|Hh].
  - by apply num_nonzero in Hz; [|lia].
  - rewrite Hh in h_pos. by apply Qclt_not_eq in h_pos.
Qed.

Lemma closestCell_row (m : Z) :
  0 ≤ m →
  closestCell centerX (centerX (cell_of 0 0)) (row_cells (2 * m))
  = Some (cell_of (2 * m) m).
Proof.
  intros Hm. unfold row_cells.
  replace (2 * m + 1) with (m + (1 + m)) by lia.
  rewrite !seqZ_app by lia. rewrite !fmap_app. simpl.
  apply closestCell_centre.
  - intros c (k & -> & Hk%elem_of_seqZ)%list_elem_of_fmap.
    apply (distance_off_centre (2 * m) k). lia.
  - replace (0 + m) with m by lia. apply distance_centre.
Qed.

Lemma drawVerticalSymmetryLine_dom_of (R : Z) :
  1 ≤ R →
  drawVerticalSymmetryLine centerX R (dom_of R) = cell_of 0 0 :: central_cells R.
Proof.
  intros HR. unfold drawVerticalSymmetryLine.
  rewrite querySelector_dom_of. rewrite decide_True by lia.
  fold (cell_of 0 0). unfold central_cells.
  pose proof (Z.div_mod (R + 1) 2 ltac:(lia)) as Hd.
  pose proof (Z.mod_pos_bound (R + 1) 2 ltac:(lia)) as Hb.
  assert (∀ (l : list Z) (acc : list Cell),
            (∀ m, m ∈ l → 0 ≤ m ∧ 2 * m < R) →
            foldl (fun verticalLineCells n =>
               match closestCell centerX (centerX (cell_of 0 0))
                                 (querySelectorAll_row (dom_of R) n) with
               | Some cell => verticalLineCells ++ [cell]
               | None => verticalLineCells
               end) acc ((fun i => 2 * i) <$> l)
            = acc ++ ((fun m => cell_of (2 * m) m) <$> l)) as Hfold.
  { induction l as [|m l IH]; intros acc Hl; csimpl; [by rewrite app_nil_r|].
    destruct (Hl m ltac:(left)) as [Hm0 Hm].
    rewrite querySelectorAll_row_dom_of by lia.
    rewrite closestCell_row by lia.
    rewrite IH; [by rewrite <- app_assoc|].
    intros m' Hm'. apply Hl. by right. }
  rewrite Hfold; [done|]. intros m Hm%elem_of_seqZ. lia.
Qed.

End Layout.

Import App.



(** X7. On a page of [R >= 1] rows [drawConnections] draws [R (R - 1)]
    lines: two from each cell above the last row. *)
Theorem connections_count (R : Z) :
  1 ≤ R →
  (fun page => Z.of_nat (length (drawConnections page))) <$> render R
  = Some (R * (R - 1)).
Proof.
  intros HR. rewrite render_dom_of. simpl.
  by rewrite drawConnections_dom_of, length_connections_of.
Qed.

Lemma connections_count_witness :
  (fun page => Z.of_nat (length (drawConnections page))) <$> render 6
  = Some (6 * (6 - 1)).
Proof. apply (connections_count 6). lia. Defined.

(** X8. The Sierpinski display.  With [showSierpinski] on, the cell that
    [render] makes at [(n, k)] gets the class [triangle] exactly when every
    binary digit of [k] is a binary digit of [n] ([n & k = k]): the odd
    entries of the triangle, by Lucas' rule. *)
Theorem sierpinski_marks_binary_subsets (s : State) (R n k : Z) :
  showSierpinski s = true → 0 ≤ k ≤ n → n < R →
  ∃ page cell classes,
    render R = Some page
    ∧ querySelector page n k = Some cell
    ∧ cellClasses s (data_value cell) = Some classes
    ∧ ("triangle" ∈ classes ↔ Z.land n k = k).
Proof.
  intros Hs Hk Hn. exists (dom_of R), (cell_of n k).
  assert (∃ classes, cellClasses s (combination n k) = Some classes
                     ∧ ("triangle" ∈ classes ↔ Z.land n k = k))
    as (classes & Hc & Hin).
  { unfold cellClasses. rewrite Hs.
    rewrite combination_binomial_Z by lia.
    change (integer_value (num ?z)) with (Some z). simpl.
    rewrite odd_rem by lia. rewrite combination_odd by lia.
    destruct (if showPrimes s then _ else _) as [rounded|] eqn:Hr.
    2:{ destruct (showPrimes s); [|done]. simpl in Hr.
        by rewrite isPrime_reference_spec in Hr. }
    simpl. eexists. split; [done|].
    case_bool_decide as Hland; simpl.
    - split; [done|]. intros _. left.
    - split; [|done]. destruct rounded; simpl.
      + intros Hin%list_elem_of_singleton. done.
      + by intros Hin%elem_of_nil. }
  exists classes. split; [apply render_dom_of|]. split; [|done].
  rewrite querySelector_dom_of. by rewrite decide_True by lia.
Qed.

Lemma sierpinski_marks_binary_subsets_witness :
  ∃ page cell classes,
    render 8 = Some page
    ∧ querySelector page 6 2 = Some cell
    ∧ cellClasses (activateFeature (Some sierpinski) state0) (data_value cell)
      = Some classes
    ∧ ("triangle" ∈ classes ↔ Z.land 6 2 = 2).
Proof.
  apply (sierpinski_marks_binary_subsets
           (activateFeature (Some sierpinski) state0) 8 6 2);
    [reflexivity|lia|lia].
Defined.



(** X10. The cells the Fibonacci pattern highlights on a page of [R] rows
    are, diagonal after diagonal, the cells at [(m - i, i)] for
    [m = 0, ..., R - 1] and [i = 0, ..., m / 2]: exactly the cells with
    [n + k < R].  The cells with [n + k >= R], the lower right part of the
    triangle, lie on diagonals the loop does not reach and stay plain. *)
Theorem fibonacci_highlights_upper_left (R : Z) :
  ∃ cells, extractPattern fibonacci R = Some cells
           ∧ cells = concat (diagonal_cells <$> seqZ 0 R)
           ∧ ∀ c, c ∈ cells
                  ↔ ∃ n k, 0 ≤ k ≤ n ∧ n + k < R ∧ c = cell_of n k.
Proof.
  unfold extractPattern. rewrite render_dom_of. simpl.
  rewrite fibonacci_cells_dom_of. eexists. split; [done|]. split; [done|].
  intros c. rewrite elem_of_concat. split.
  - intros (l & Hc & Hl).
    apply list_elem_of_fmap in Hl as (m & -> & Hm%elem_of_seqZ).
    apply list_elem_of_fmap in Hc as (i & -> & Hi%elem_of_seqZ).
    pose proof (Z.div_mod m 2 ltac:(lia)) as Hd.
    pose proof (Z.mod_pos_bound m 2 ltac:(lia)) as Hb.
    exists (m - i), i. split; [lia|]. split; [lia|done].
  - intros (n & k & Hk & Hn & ->). exists (diagonal_cells (n + k)). split.
    + apply list_elem_of_fmap. exists k.
      split; [by replace (n + k - k) with n by lia|].
      apply elem_of_seqZ.
      pose proof (Z.div_mod (n + k) 2 ltac:(lia)) as Hd.
      pose proof (Z.mod_pos_bound (n + k) 2 ltac:(lia)) as Hb. lia.
    + apply list_elem_of_fmap. exists (n + k). split; [done|].
      apply elem_of_seqZ. lia.
Qed.

(** X11. Whatever the user does, the row count stays within the bounds:
    after any sequence of events from the initial page, [minRows] is still
    1, [maxRows] is still 30, and [1 <= rows <= 30]. *)
Theorem rows_stay_in_bounds (a0 : App) (es : list Event) :
  initial a0 →
  minRows (state (run es a0)) = 1 ∧ maxRows (state (run es a0)) = 30
  ∧ 1 ≤ rows (state (run es a0)) ≤ 30.
Proof. apply bounds_reachable. Qed.

Lemma rows_stay_in_bounds_witness :
  minRows (state (run [ApplyRows (Some 30); AddRow; ApplyRows (Some 31)] app0)) = 1
  ∧ maxRows (state (run [ApplyRows (Some 30); AddRow; ApplyRows (Some 31)] app0))
    = 30
  ∧ 1 ≤ rows (state (run [ApplyRows (Some 30); AddRow; ApplyRows (Some 31)] app0))
      ≤ 30.
Proof.
  apply (rows_stay_in_bounds app0 [ApplyRows (Some 30); AddRow; ApplyRows (Some 31)]).
  split; [reflexivity|split; reflexivity].
Defined.

(** X12. The special displays exclude one another: after any sequence of
    events from the initial page, at most one of the symmetry line, a
    number pattern, the Sierpinski display, the row sums and the prime
    display is on. *)
Theorem one_feature_at_a_time (a0 : App) (es : list Event) :
  initial a0 → (features_on (state (run es a0)) ≤ 1)%nat.
Proof.
  intros (Hs & _ & _).
  apply (run_invariant (fun a => (features_on (state a) ≤ 1)%nat)).
  - apply features_invariant.
  - rewrite Hs. unfold features_on. simpl. lia.
Qed.

Lemma one_feature_at_a_time_witness :
  (features_on (state (run [TogglePrimes; PatternBtn fibonacci; ToggleSymmetry]
                           app0)) ≤ 1)%nat.
Proof.
  apply (one_feature_at_a_time app0
           [TogglePrimes; PatternBtn fibonacci; ToggleSymmetry]).
  split; [reflexivity|split; reflexivity].
Defined.

(** X13. The formula panel never goes stale: after any sequence of events
    from the initial page, if the panel shows a formula then a cell has
    been clicked, and the formula is [showBinomialExpansion] of the row of
    the cell clicked last, in the coefficient style selected now. *)
Theorem expansion_panel_in_sync (a0 : App) (es : list Event)
    (latex : option string) :
  initial a0 → expansionContent (run es a0) = formula latex →
  ∃ n k value, lastClicked (run es a0) = Some (n, k, value)
               ∧ latex = showBinomialExpansion
                           (useNumericCoeff (state (run es a0))) n.
Proof.
  intros (_ & _ & Hp). revert latex.
  apply (run_invariant panel_in_sync).
  - apply panel_invariant.
  - intros latex. by rewrite Hp.
Qed.

Lemma expansion_panel_in_sync_witness :
  ∃ n k value,
    lastClicked (run [CellClick 2 1 (num 2); ToggleCoeff] app0)
    = Some (n, k, value)
    ∧ showBinomialExpansion true 2
      = showBinomialExpansion
          (useNumericCoeff (state (run [CellClick 2 1 (num 2); ToggleCoeff] app0)))
          n.
Proof.
  apply (expansion_panel_in_sync app0 [CellClick 2 1 (num 2); ToggleCoeff]
           (showBinomialExpansion true 2)).
  - split; [reflexivity|split; reflexivity].
  - reflexivity.
Defined.

(** X14. A display that is on always has its decoration, but a decoration
    can outlive its display.  After any sequence of events the Sierpinski
    display implies the container's class [sierpinski-active] and the
    "hide" text on its button, and the symmetry line implies the "hide"
    text on its button.  The converse fails: turning the Sierpinski display
    on and then choosing a pattern leaves the class on with the display
    off, and turning the symmetry line on and then the prime display leaves
    the symmetry button reading "hide" with the line off. *)
Theorem decorations_lag_behind (a0 : App) :
  initial a0 →
  (∀ es, decorations_follow (run es a0))
  ∧ sierpinskiActive (run [ToggleSierpinski; PatternBtn fibonacci] a0) = true
  ∧ showSierpinski (state (run [ToggleSierpinski; PatternBtn fibonacci] a0))
    = false
  ∧ symmetryBtnHides (run [ToggleSymmetry; TogglePrimes] a0) = true
  ∧ showSymmetryLine (state (run [ToggleSymmetry; TogglePrimes] a0)) = false.
Proof.
  intros (Hs & _ & _). split.
  - intros es. apply (run_invariant decorations_follow).
    + apply decorations_invariant.
    + unfold decorations_follow. by rewrite Hs.
  - unfold run. simpl. by rewrite Hs.
Qed.

Lemma decorations_lag_behind_witness :
  (∀ es, decorations_follow (run es app0))
  ∧ sierpinskiActive (run [ToggleSierpinski; PatternBtn fibonacci] app0) = true
  ∧ showSierpinski (state (run [ToggleSierpinski; PatternBtn fibonacci] app0))
    = false
  ∧ symmetryBtnHides (run [ToggleSymmetry; TogglePrimes] app0) = true
  ∧ showSymmetryLine (state (run [ToggleSymmetry; TogglePrimes] app0)) = false.
Proof.
  apply (decorations_lag_behind app0).
  split; [reflexivity|split; reflexivity].
Defined.

(** X15. Every page the application can show is exact.  After any sequence
    of events from the initial page, [render] of the current row count
    returns a page on which the row sums drawn are the powers of two, the
    diagonal sums drawn are the Fibonacci numbers, and every cell holds a
    value that the loop of [combination], run on doubles, returns
    exactly. *)
Theorem every_display_is_exact (a0 : App) (es : list Event) :
  initial a0 →
  ∃ page, render (rows (state (run es a0))) = Some page
    ∧ drawRowSums page = power_labels (rows (state (run es a0)))
    ∧ fib_labels (getFibonacciCells (rows (state (run es a0))) page)
      = fibonacci_labels (rows (state (run es a0)))
    ∧ ∀ c, c ∈ concat page →
        ∃ r, Double.returns (data_n c) (data_k c) r
             ∧ (r =? Double.of_Z (Qnum (data_value c)))%float = true.
Proof.
  intros Hinit. destruct (bounds_reachable a0 es Hinit) as (_ & _ & HR).
  set (R := rows (state (run es a0))) in *.
  exists (dom_of R). split; [apply render_dom_of|]. split; [|split].
  - pose proof (forallb_seqZ _ 0 31 R drawRowSums_upto_30 ltac:(lia)) as H.
    apply bool_decide_eq_true_1 in H. rewrite render_dom_of in H.
    by injection H.
  - pose proof (fibonacciLabels_fibonacci R ltac:(lia)) as H.
    unfold fibonacciLabels in H. rewrite render_dom_of in H. by injection H.
  - intros c (n & k & Hk & Hn & ->)%elem_of_dom_of. unfold cell_of. simpl.
    apply double_value_cell; lia.
Qed.

Lemma every_display_is_exact_witness :
  ∃ page, render (rows (state (run [ApplyRows (Some 30); ToggleRowSums] app0)))
          = Some page
    ∧ drawRowSums page
      = power_labels (rows (state (run [ApplyRows (Some 30); ToggleRowSums] app0)))
    ∧ fib_labels (getFibonacciCells
                    (rows (state (run [ApplyRows (Some 30); ToggleRowSums] app0)))
                    page)
      = fibonacci_labels
          (rows (state (run [ApplyRows (Some 30); ToggleRowSums] app0)))
    ∧ ∀ c, c ∈ concat page →
        ∃ r, Double.returns (data_n c) (data_k c) r
             ∧ (r =? Double.of_Z (Qnum (data_value c)))%float = true.
Proof.
  apply (every_display_is_exact app0 [ApplyRows (Some 30); ToggleRowSums]).
  split; [reflexivity|split; reflexivity].
Defined.

(** X16. Adding and removing a row undo each other.  In any state reached
    from the initial page: below 30 rows, add-row then remove-row gives the
    state back; above 1 row, remove-row then add-row does; at 30 rows
    add-row changes nothing, and at 1 row remove-row changes nothing. *)
Theorem add_remove_row_round_trip (a0 : App) (es : list Event) :
  initial a0 →
  (rows (state (run es a0)) < 30 →
   handle RemoveRow (handle AddRow (run es a0)) = run es a0)
  ∧ (1 < rows (state (run es a0)) →
     handle AddRow (handle RemoveRow (run es a0)) = run es a0)
  ∧ (rows (state (run es a0)) = 30 → handle AddRow (run es a0) = run es a0)
  ∧ (rows (state (run es a0)) = 1 → handle RemoveRow (run es a0) = run es a0).
Proof.
  intros Hinit. destruct (bounds_reachable a0 es Hinit) as (Hmin & Hmax & HR).
  destruct (run es a0) as [[r mx mn sl uc un sym cp sie sums pri] lc ec sa sb sib].
  simpl in *. subst mx mn.
  split; [|split; [|split]]; intros Hr; simpl;
    repeat (case_decide; simpl in * ); try lia; try done;
    unfold set_state, set_rows; simpl; do 2 f_equal; lia.
Qed.

Lemma add_remove_row_round_trip_witness :
  handle RemoveRow (handle AddRow (run [ToggleLines] app0)) = run [ToggleLines] app0
  ∧ handle AddRow (run [ApplyRows (Some 30)] app0) = run [ApplyRows (Some 30)] app0.
Proof.
  split.
  - apply (proj1 (add_remove_row_round_trip app0 [ToggleLines]
                    (conj eq_refl (conj eq_refl eq_refl)))).
    simpl. lia.
  - apply (proj1 (proj2 (proj2 (add_remove_row_round_trip
                                  app0 [ApplyRows (Some 30)]
                                  (conj eq_refl (conj eq_refl eq_refl)))))).
    reflexivity.
Defined.

(** X17. What the reset button leaves behind.  In any state reached from
    the initial page, reset puts [state] back to the initial literal except
    for [showSymmetryLine], which it keeps, and writes the placeholder into
    the formula panel; it also keeps [el.lastClicked], so that a click on
    the coefficient button after a reset fills the panel again, with the
    formula of the cell clicked before the reset. *)
Theorem reset_keeps_symmetry_and_last_click (a0 : App) (es : list Event) :
  initial a0 →
  state (handle ResetBtn (run es a0))
  = set_features (showSymmetryLine (state (run es a0))) None false false false
                 state0
  ∧ expansionContent (handle ResetBtn (run es a0)) = placeholder
  ∧ lastClicked (handle ResetBtn (run es a0)) = lastClicked (run es a0)
  ∧ (∀ n k value, lastClicked (run es a0) = Some (n, k, value) →
       expansionContent (handle ToggleCoeff (handle ResetBtn (run es a0)))
       = formula (showBinomialExpansion true n)).
Proof.
  intros Hinit. destruct (bounds_reachable a0 es Hinit) as (Hmin & Hmax & HR).
  destruct (run es a0) as [[r mx mn sl uc un sym cp sie sums pri] lc ec sa sb sib].
  simpl in *. subst mx mn. split; [done|]. split; [done|]. split; [done|].
  by intros n k value ->.
Qed.

Lemma reset_keeps_symmetry_and_last_click_witness :
  showSymmetryLine
    (state (handle ResetBtn (run [ToggleSymmetry; CellClick 3 1 (num 3)] app0)))
  = true
  ∧ expansionContent
      (handle ToggleCoeff
         (handle ResetBtn (run [ToggleSymmetry; CellClick 3 1 (num 3)] app0)))
    = formula (showBinomialExpansion true 3).
Proof.
  pose proof (reset_keeps_symmetry_and_last_click
                app0 [ToggleSymmetry; CellClick 3 1 (num 3)]
                (conj eq_refl (conj eq_refl eq_refl))) as (Hs & _ & _ & Hc).
  split.
  - rewrite Hs. reflexivity.
  - apply (Hc 3 1 (num 3)). reflexivity.
Defined.

(** X18. [debounce] runs the last call of a burst, once.  After any
    history, let the debounced function be called any number of times, each
    call followed by a pause shorter than [wait], then once more with
    arguments [last], and then let [wait] or more pass: [fn] has run
    exactly once more, with [last], and no timer is left. *)
Theorem debounce_runs_last_call_once {A} (wait : Z)
    (before : list (Debounce.Event A)) (calls : list (A * Z)) (last : A)
    (quiet : Z) :
  Forall (fun c => 0 ≤ c.2 < wait) calls → wait ≤ quiet →
  Debounce.executed
    (Debounce.run wait
       (before ++ Debounce.burst calls
               ++ [Debounce.Call last; Debounce.Elapse quiet])
       Debounce.start)
  = Debounce.executed (Debounce.run wait before Debounce.start) ++ [last]
  ∧ Debounce.pending
      (Debounce.run wait
         (before ++ Debounce.burst calls
                 ++ [Debounce.Call last; Debounce.Elapse quiet])
         Debounce.start) = [].
Proof.
  intros Hcalls Hquiet. rewrite !debounce_run_app.
  assert (Debounce.one_timer (Debounce.run wait before (@Debounce.start A))) as H0.
  { apply one_timer_run. by left. }
  set (e0 := Debounce.run wait before Debounce.start) in *.
  assert (Debounce.one_timer (Debounce.run wait (Debounce.burst calls) e0)) as H1.
  { by apply one_timer_run. }
  rewrite <- (burst_runs_nothing wait calls e0 H0 Hcalls).
  set (e1 := Debounce.run wait (Debounce.burst calls) e0) in *.
  change (Debounce.run wait [Debounce.Call last; Debounce.Elapse quiet] e1)
    with (Debounce.elapse quiet (Debounce.debounced wait last e1)).
  rewrite debounced_one_timer by done. unfold Debounce.elapse. simpl.
  rewrite filter_cons_True by (simpl; lia).
  rewrite filter_cons_False by (simpl; lia). done.
Qed.

Lemma debounce_runs_last_call_once_witness :
  Debounce.executed
    (Debounce.run 120
       ([Debounce.Call 1; Debounce.Elapse 500]
        ++ Debounce.burst [(2, 40); (3, 119)]
        ++ [Debounce.Call 4; Debounce.Elapse 120])
       Debounce.start)
  = Debounce.executed
      (Debounce.run 120 [Debounce.Call 1; Debounce.Elapse 500] Debounce.start)
    ++ [4]
  ∧ Debounce.pending
      (Debounce.run 120
         ([Debounce.Call 1; Debounce.Elapse 500]
          ++ Debounce.burst [(2, 40); (3, 119)]
          ++ [Debounce.Call 4; Debounce.Elapse 120])
         Debounce.start) = [].
Proof.
  apply (debounce_runs_last_call_once 120
           [Debounce.Call 1; Debounce.Elapse 500] [(2, 40); (3, 119)] 4 120).
  - repeat constructor; simpl; lia.
  - lia.
Defined.

(** X19. What [debounce] never does.  After any sequence of calls and
    pauses, the runs of [fn] are among the calls made, in the order they
    were made and none more often than it was made, and at most one timer
    is set. *)
Theorem debounce_runs_only_what_was_called {A} (wait : Z)
    (evs : list (Debounce.Event A)) :
  sublist (Debounce.executed (Debounce.run wait evs Debounce.start))
          (Debounce.called evs)
  ∧ (length (Debounce.pending (Debounce.run wait evs Debounce.start)) ≤ 1)%nat.
Proof.
  pose proof (runs_called_run wait evs (@Debounce.start A) []) as H.
  simpl in H. specialize (H ltac:(by left)). split.
  - by eapply runs_called_sublist.
  - apply runs_called_one_timer in H as [->|(t & -> & _)]; simpl; lia.
Qed.

(** X20. The symmetry line marks the central coefficients.  Let the page
    of [R >= 1] rows be laid out symmetrically: the centre of the cell at
    [(n, k)] lies at [x0 + (2 k - n) h] for some half-pitch [h > 0].  Then
    [verticalLineCells] is the apex followed by the middle cells
    [(0, 0), (2, 1), (4, 2), ...] of the even rows, which hold
    [C(2 m, m)]; the apex is listed twice, once as [firstCell] and once as
    the closest cell of row 0. *)
Theorem symmetry_line_marks_central_cells (centerX : Cell → Qc) (x0 h : Qc)
    (R : Z) :
  (0 < h)%Qc →
  (∀ n k, centerX (cell_of n k) = (x0 + num (2 * k - n) * h)%Qc) →
  1 ≤ R →
  drawVerticalSymmetryLine centerX R <$> render R
  = Some (cell_of 0 0 :: central_cells R).
Proof.
  intros Hh Hlayout HR. rewrite render_dom_of. simpl. f_equal.
  by apply (drawVerticalSymmetryLine_dom_of centerX x0 h).
Qed.

Lemma symmetry_line_marks_central_cells_witness :
  drawVerticalSymmetryLine
    (fun c => (0 + num (2 * data_k c - data_n c) * 1)%Qc) 5 <$> render 5
  = Some (cell_of 0 0 :: central_cells 5).
Proof.
  apply (symmetry_line_marks_central_cells
           (fun c => (0 + num (2 * data_k c - data_n c) * 1)%Qc) 0%Qc 1%Qc 5).
  - reflexivity.
  - intros n k. reflexivity.
  - lia.
Defined.
